(** * CarGame: the car model, the collision handler and one tick of the loop

    A shallow embedding of [CarGame.py].  Python's floats are read as real
    numbers, its unbounded integers as [Z]; exceptions are explicit results.
    The statements about floats are orderings, clamps, and values given by
    the expression the code itself evaluates; where rounding decides, the
    steering step is evaluated on binary64 as well.
    Everything that comes from pygame (surfaces, masks, rectangles) is an
    interface the model is parameterised by, and the images loaded at start-up
    are a record of assets. *)

From Stdlib Require Import Reals Lra ZArith Lia List Bool.
From Stdlib Require PrimFloat.
Import ListNotations.

Open Scope R_scope.

(** ** Python values and exceptions *)

Inductive PyError : Type :=
| IndexError
| ZeroDivisionError.

Inductive Exc (A : Type) : Type :=
| Ok (a : A)
| Raise (e : PyError).

Arguments Ok {A} a.
Arguments Raise {A} e.

Definition bind {A B : Type} (m : Exc A) (k : A -> Exc B) : Exc B :=
  match m with
  | Ok a => k a
  | Raise e => Raise e
  end.

Notation "x <- m ;; k" := (bind m (fun x => k))
  (at level 61, m at next level, right associativity).

(** [min(a, b)]: the first argument unless the second is strictly smaller. *)
Definition py_min (a b : R) : R := if Rlt_dec b a then b else a.

(** [max(a, b)]: the first argument unless the second is strictly larger. *)
Definition py_max (a b : R) : R := if Rlt_dec a b then b else a.

(** [math.radians] and [math.degrees]. *)
Definition radians (x : R) : R := x * (PI / 180).
Definition degrees (x : R) : R := x * (180 / PI).

(** [int(x)] on a float: truncation toward zero. *)
Definition py_int (x : R) : Z :=
  if Rle_dec 0 x then Int_part x else (- Int_part (- x))%Z.

(** [a / b] on floats raises when the divisor is zero. *)
Definition py_div (a b : R) : Exc R :=
  if Req_dec_T b 0 then Raise ZeroDivisionError else Ok (a / b).

(** [l[i]]: a negative index counts from the end, anything outside
    [-len(l) .. len(l) - 1] raises [IndexError]. *)
Definition py_index {A : Type} (l : list A) (i : Z) : Exc A :=
  let n := Z.of_nat (length l) in
  let j := if (i <? 0)%Z then (i + n)%Z else i in
  if (0 <=? j)%Z && (j <? n)%Z then
    match nth_error l (Z.to_nat j) with
    | Some a => Ok a
    | None => Raise IndexError
    end
  else Raise IndexError.

(** ** The pygame interface *)

Class Pygame : Type := {
  Surface : Type;
  Mask : Type;
  (** [pygame.mask.from_surface] *)
  mask_from_surface : Surface -> Mask;
  (** [mask.overlap(other, offset)]: a point of intersection, or [None] *)
  mask_overlap : Mask -> Mask -> Z * Z -> option (Z * Z);
  get_width : Surface -> Z;
  get_height : Surface -> Z;
  (** [pygame.Rect(x, y, w, h).collidepoint(px, py)] *)
  rect_collidepoint : R -> R -> Z -> Z -> Z * Z -> bool
}.

(** The module-level values built from the image files. *)
Class Assets {pg : Pygame} : Type := {
  TRACK_EDGE_MASK : Mask;
  FINISH_LINE_MASK : Mask;
  PLAYER_CAR_IMAGE : Surface;
  AI_CAR_IMAGE : Surface
}.

Definition FINISH_POS : Z * Z := (130, 250)%Z.

Definition WAYPOINTS : list (Z * Z) :=
  [(175, 119); (110, 70); (56, 133); (70, 481); (318, 731); (404, 680);
   (418, 521); (507, 475); (600, 551); (613, 715); (736, 713); (734, 399);
   (611, 357); (409, 343); (433, 257); (697, 258); (738, 123); (581, 71);
   (303, 78); (275, 377); (176, 388); (178, 260)]%Z.

Section Model.

Context {pg : Pygame} {assets : Assets}.

(** ** GameInfo *)

Record GameInfo : Type := mkGameInfo {
  stage : Z;
  in_progress : bool;
  stage_start_time : R
}.

Definition LEVELS : Z := 10.

Definition GameInfo_init (stage : Z) : GameInfo :=
  {| stage := stage; in_progress := false; stage_start_time := 0 |}.

Definition GameInfo_advance_level (g : GameInfo) : GameInfo :=
  {| stage := stage g + 1;
     in_progress := false;
     stage_start_time := stage_start_time g |}.

Definition GameInfo_reset_state (g : GameInfo) : GameInfo :=
  {| stage := 1; in_progress := false; stage_start_time := 0 |}.

Definition is_game_finished (g : GameInfo) : bool := (LEVELS <? stage g)%Z.

(** [now] is the value [time.time()] returns. *)
Definition start_stage (now : R) (g : GameInfo) : GameInfo :=
  {| stage := stage g; in_progress := true; stage_start_time := now |}.

(** ** AbstractCar *)

Record AbstractCar : Type := mkCar {
  sprite : Surface;
  max_speed : R;
  speed : R;
  turn_speed : R;
  heading : R;
  x_pos : R;
  y_pos : R;
  acceleration : R
}.

Definition set_speed (v : R) (c : AbstractCar) : AbstractCar :=
  {| sprite := sprite c; max_speed := max_speed c; speed := v;
     turn_speed := turn_speed c; heading := heading c;
     x_pos := x_pos c; y_pos := y_pos c; acceleration := acceleration c |}.

Definition set_heading (h : R) (c : AbstractCar) : AbstractCar :=
  {| sprite := sprite c; max_speed := max_speed c; speed := speed c;
     turn_speed := turn_speed c; heading := h;
     x_pos := x_pos c; y_pos := y_pos c; acceleration := acceleration c |}.

Definition set_pos (x y : R) (c : AbstractCar) : AbstractCar :=
  {| sprite := sprite c; max_speed := max_speed c; speed := speed c;
     turn_speed := turn_speed c; heading := heading c;
     x_pos := x; y_pos := y; acceleration := acceleration c |}.

(** [IMAGE] and [START_POSITION] are the class attributes of the subclass. *)
Definition AbstractCar_init (IMAGE : Surface) (START_POSITION : Z * Z)
    (max_speed turn_speed : R) : AbstractCar :=
  {| sprite := IMAGE; max_speed := max_speed; speed := 0;
     turn_speed := turn_speed; heading := 0;
     x_pos := IZR (fst START_POSITION); y_pos := IZR (snd START_POSITION);
     acceleration := 0.1 |}.

Definition rotate (left right : bool) (c : AbstractCar) : AbstractCar :=
  if left then set_heading (heading c + turn_speed c) c
  else if right then set_heading (heading c - turn_speed c) c
  else c.

(** The assignments of [accelerate_forward] and [accelerate_backward]; the
    call of [self.update_motion()] that follows is dispatched on the class. *)
Definition forward_speed (c : AbstractCar) : AbstractCar :=
  set_speed (py_min (speed c + acceleration c) (max_speed c)) c.

Definition backward_speed (c : AbstractCar) : AbstractCar :=
  set_speed (py_max (speed c - acceleration c) (- max_speed c / 2)) c.

Definition AbstractCar_update_motion (c : AbstractCar) : AbstractCar :=
  let rad := radians (heading c) in
  let vert := cos rad * speed c in
  let horiz := sin rad * speed c in
  set_pos (x_pos c - horiz) (y_pos c - vert) c.

Definition collides_with (c : AbstractCar) (mask : Mask) (x y : Z)
    : option (Z * Z) :=
  let car_mask := mask_from_surface (sprite c) in
  let screen_offset := (py_int (x_pos c - IZR x), py_int (y_pos c - IZR y)) in
  mask_overlap mask car_mask screen_offset.

Definition AbstractCar_reset_state (START_POSITION : Z * Z) (c : AbstractCar)
    : AbstractCar :=
  set_speed 0
    (set_heading 0
       (set_pos (IZR (fst START_POSITION)) (IZR (snd START_POSITION)) c)).

(** ** PlayerCar *)

Definition PlayerCar_START_POSITION : Z * Z := (180, 200)%Z.

Definition PlayerCar_init (max_speed turn_speed : R) : AbstractCar :=
  AbstractCar_init PLAYER_CAR_IMAGE PlayerCar_START_POSITION
    max_speed turn_speed.

Definition PlayerCar_accelerate_forward (p : AbstractCar) : AbstractCar :=
  AbstractCar_update_motion (forward_speed p).

Definition PlayerCar_accelerate_backward (p : AbstractCar) : AbstractCar :=
  AbstractCar_update_motion (backward_speed p).

Definition PlayerCar_reset_state (p : AbstractCar) : AbstractCar :=
  AbstractCar_reset_state PlayerCar_START_POSITION p.

Definition apply_friction (p : AbstractCar) : AbstractCar :=
  AbstractCar_update_motion
    (set_speed (py_max (speed p - acceleration p / 2) 0) p).

Definition bounce (p : AbstractCar) : AbstractCar :=
  AbstractCar_update_motion (set_speed (- speed p) p).

(** ** ComputerCar *)

Record ComputerCar : Type := mkComputerCar {
  car : AbstractCar;
  waypoints : list (Z * Z);
  waypoint_index : Z
}.

Definition ComputerCar_START_POSITION : Z * Z := (150, 200)%Z.

Definition with_car (f : AbstractCar -> AbstractCar) (c : ComputerCar)
    : ComputerCar :=
  {| car := f (car c); waypoints := waypoints c;
     waypoint_index := waypoint_index c |}.

Definition ComputerCar_init (max_speed turn_speed : R)
    (waypoints : list (Z * Z)) : ComputerCar :=
  {| car := set_speed max_speed
              (AbstractCar_init AI_CAR_IMAGE ComputerCar_START_POSITION
                 max_speed turn_speed);
     waypoints := waypoints;
     waypoint_index := 0 |}.

(** Lines 152-161 of [compute_angle]: the angle, in radians, from the car at
    [(x, y)] to the target. *)
Definition desired_angle_rad (x y : R) (target : Z * Z) : Exc R :=
  let dx := IZR (fst target) - x in
  let dy := IZR (snd target) - y in
  a <- (if Req_dec_T dy 0 then Ok (PI / 2)
        else q <- py_div dx dy ;; Ok (atan q)) ;;
  Ok (if Rlt_dec y (IZR (snd target)) then a + PI else a).

(** Lines 162-170 of [compute_angle]: the new heading, from the heading [h],
    the desired heading [d] in degrees and the turn speed. *)
Definition steer (turn h d : R) : R :=
  let angle_delta := h - d in
  let angle_delta :=
    if Rle_dec 180 angle_delta then angle_delta - 360 else angle_delta in
  if Rlt_dec 0 angle_delta then h - py_min turn (Rabs angle_delta)
  else h + py_min turn (Rabs angle_delta).

Definition compute_angle (c : ComputerCar) : Exc ComputerCar :=
  target <- py_index (waypoints c) (waypoint_index c) ;;
  a <- desired_angle_rad (x_pos (car c)) (y_pos (car c)) target ;;
  Ok (with_car
        (set_heading
           (steer (turn_speed (car c)) (heading (car c)) (degrees a))) c).

Definition advance_waypoint (c : ComputerCar) : Exc ComputerCar :=
  target_idx <- py_index (waypoints c) (waypoint_index c) ;;
  if rect_collidepoint (x_pos (car c)) (y_pos (car c))
       (get_width (sprite (car c))) (get_height (sprite (car c))) target_idx
  then Ok {| car := car c; waypoints := waypoints c;
             waypoint_index := waypoint_index c + 1 |}
  else Ok c.

Definition ComputerCar_update_motion (c : ComputerCar) : Exc ComputerCar :=
  if (Z.of_nat (length (waypoints c)) <=? waypoint_index c)%Z then Ok c
  else
    c1 <- compute_angle c ;;
    c2 <- advance_waypoint c1 ;;
    Ok (with_car AbstractCar_update_motion c2).

(** The inherited methods on a [ComputerCar]: [self.update_motion()] is the
    override. *)
Definition ComputerCar_rotate (left right : bool) (c : ComputerCar)
    : ComputerCar :=
  with_car (rotate left right) c.

Definition ComputerCar_accelerate_forward (c : ComputerCar)
    : Exc ComputerCar :=
  ComputerCar_update_motion (with_car forward_speed c).

Definition ComputerCar_accelerate_backward (c : ComputerCar)
    : Exc ComputerCar :=
  ComputerCar_update_motion (with_car backward_speed c).

Definition ComputerCar_reset_state (c : ComputerCar) : ComputerCar :=
  with_car (AbstractCar_reset_state ComputerCar_START_POSITION) c.

Definition ComputerCar_advance_level (stage : Z) (c : ComputerCar)
    : ComputerCar :=
  let c := ComputerCar_reset_state c in
  {| car := set_speed (max_speed (car c) + IZR (stage - 1) * 0.2) (car c);
     waypoints := waypoints c;
     waypoint_index := 0 |}.

(** ** The operations of the two car classes *)

Inductive PlayerOp : Type :=
| PRotate (left right : bool)
| PAccelerateForward
| PAccelerateBackward
| PApplyFriction
| PBounce
| PUpdateMotion
| PResetState.

Definition run_player_op (op : PlayerOp) (p : AbstractCar) : AbstractCar :=
  match op with
  | PRotate l r => rotate l r p
  | PAccelerateForward => PlayerCar_accelerate_forward p
  | PAccelerateBackward => PlayerCar_accelerate_backward p
  | PApplyFriction => apply_friction p
  | PBounce => bounce p
  | PUpdateMotion => AbstractCar_update_motion p
  | PResetState => PlayerCar_reset_state p
  end.

Inductive ComputerOp : Type :=
| CRotate (left right : bool)
| CAccelerateForward
| CAccelerateBackward
| CUpdateMotion
| CResetState
| CAdvanceLevel (stage : Z).

Definition run_computer_op (op : ComputerOp) (c : ComputerCar)
    : Exc ComputerCar :=
  match op with
  | CRotate l r => Ok (ComputerCar_rotate l r c)
  | CAccelerateForward => ComputerCar_accelerate_forward c
  | CAccelerateBackward => ComputerCar_accelerate_backward c
  | CUpdateMotion => ComputerCar_update_motion c
  | CResetState => Ok (ComputerCar_reset_state c)
  | CAdvanceLevel stage => Ok (ComputerCar_advance_level stage c)
  end.

(** The states a [ComputerCar] built by its constructor can be driven to. *)
Inductive computer_reachable (c0 : ComputerCar) : ComputerCar -> Prop :=
| reach_init : computer_reachable c0 c0
| reach_step (c c' : ComputerCar) (op : ComputerOp) :
    computer_reachable c0 c ->
    run_computer_op op c = Ok c' ->
    computer_reachable c0 c'.

(** The range the data model gives for [speed]. *)
Definition speed_in_bounds (c : AbstractCar) : Prop :=
  - max_speed c / 2 <= speed c <= max_speed c.

(** The operations that clamp or keep the speed: all but [bounce]. *)
Definition keeps_bounds (op : PlayerOp) : bool :=
  match op with
  | PBounce => false
  | _ => true
  end.

(** The same for a computer car: all but [advance_level]. *)
Definition computer_keeps_bounds (op : ComputerOp) : bool :=
  match op with
  | CAdvanceLevel _ => false
  | _ => true
  end.

(** ** The three objects of the main loop *)

Record World : Type := mkWorld {
  player : AbstractCar;
  opponent : ComputerCar;
  race_state : GameInfo
}.

(** The state of the four keys [move_player] reads. *)
Record Keys : Type := mkKeys {
  K_a : bool;
  K_d : bool;
  K_w : bool;
  K_s : bool
}.

Definition move_player (keys : Keys) (p : AbstractCar) : AbstractCar :=
  let p := if K_a keys then rotate true false p else p in
  let p := if K_d keys then rotate false true p else p in
  let p := if K_w keys then PlayerCar_accelerate_forward p else p in
  let p := if K_s keys then PlayerCar_accelerate_backward p else p in
  let moved := K_w keys || K_s keys in
  if negb moved then apply_friction p else p.

(** [handle_collision], lines 239-240: the track edge. *)
Definition border_step (w : World) : World :=
  match collides_with (player w) TRACK_EDGE_MASK 0 0 with
  | Some _ =>
      {| player := bounce (player w); opponent := opponent w;
         race_state := race_state w |}
  | None => w
  end.

(** Lines 241-248: the computer car on the finish line. *)
Definition opponent_finish_step (w : World) : World :=
  match collides_with (car (opponent w)) FINISH_LINE_MASK
          (fst FINISH_POS) (snd FINISH_POS) with
  | Some _ =>
      {| player := PlayerCar_reset_state (player w);
         opponent := ComputerCar_reset_state (opponent w);
         race_state := GameInfo_reset_state (race_state w) |}
  | None => w
  end.

(** Line 250: the overlap point the player's finish-line test gets. *)
Definition player_finish_poi (w : World) : option (Z * Z) :=
  collides_with (player w) FINISH_LINE_MASK (fst FINISH_POS) (snd FINISH_POS).

(** Lines 251-257: the player on the finish line. *)
Definition player_finish_step (w : World) : World :=
  match player_finish_poi w with
  | Some poi =>
      if (snd poi =? 0)%Z then
        {| player := bounce (player w); opponent := opponent w;
           race_state := race_state w |}
      else
        let g := GameInfo_advance_level (race_state w) in
        {| player := PlayerCar_reset_state (player w);
           opponent := ComputerCar_advance_level (stage g) (opponent w);
           race_state := g |}
  | None => w
  end.

Definition handle_collision (w : World) : World :=
  player_finish_step (opponent_finish_step (border_step w)).

(** ** One iteration of the main loop

    Drawing changes no state.  The waiting screen ends with a key press, at
    which [start_stage] reads the clock: [now] is that reading. *)

Definition wait_for_start (now : R) (w : World) : World :=
  if in_progress (race_state w) then w
  else {| player := player w; opponent := opponent w;
          race_state := start_stage now (race_state w) |}.

(** Lines 296-297: the player's input and the computer car's motion. *)
Definition tick_motion (keys : Keys) (now : R) (w : World) : Exc World :=
  let w := wait_for_start now w in
  let p := move_player keys (player w) in
  o <- ComputerCar_update_motion (opponent w) ;;
  Ok {| player := p; opponent := o; race_state := race_state w |}.

(** Lines 300-305: the end of the game. *)
Definition game_finished_step (w : World) : World :=
  if is_game_finished (race_state w) then
    {| player := PlayerCar_reset_state (player w);
       opponent := ComputerCar_reset_state (opponent w);
       race_state := GameInfo_reset_state (race_state w) |}
  else w.

Definition tick (keys : Keys) (now : R) (w : World) : Exc World :=
  w1 <- tick_motion keys now w ;;
  Ok (game_finished_step (handle_collision w1)).

(** The world in which the player's finish-line test of this tick runs, and
    whether that test credits the stage. *)
Definition before_player_finish (keys : Keys) (now : R) (w : World)
    : Exc World :=
  w1 <- tick_motion keys now w ;;
  Ok (opponent_finish_step (border_step w1)).

Definition completes_stage (w : World) : bool :=
  match player_finish_poi w with
  | Some poi => negb (snd poi =? 0)%Z
  | None => false
  end.

End Model.

(** ** The stage clock, sequences of calls and runs of the loop *)

(** [round(x)] on a float: the nearest integer, a tie going to the even
    one. *)
Definition py_round (x : R) : Z :=
  let f := Int_part x in
  let d := x - IZR f in
  if Rlt_dec d (1 / 2) then f
  else if Rlt_dec (1 / 2) d then (f + 1)%Z
  else if Z.even f then f else (f + 1)%Z.

(** Lines 162-165 of [compute_angle]: the difference between the heading [h]
    and the desired heading [d], less 360 from 180 on. *)
Definition angle_delta (h d : R) : R :=
  if Rle_dec 180 (h - d) then h - d - 360 else h - d.

Section Loop.

Context {pg : Pygame} {assets : Assets}.

(** [now] is the value [time.time()] returns. *)
Definition get_stage_time (now : R) (g : GameInfo) : Z :=
  if negb (in_progress g) then 0%Z
  else py_round (now - stage_start_time g).

(** A sequence of calls on a player car, in order. *)
Definition run_player_ops (ops : list PlayerOp) (p : AbstractCar)
    : AbstractCar :=
  fold_left (fun q op => run_player_op op q) ops p.

(** The main loop over the inputs of successive iterations: the keys held and
    the clock reading of each. *)
Fixpoint run_ticks (inputs : list (Keys * R)) (w : World) : Exc World :=
  match inputs with
  | [] => Ok w
  | (keys, now) :: rest => w' <- tick keys now w ;; run_ticks rest w'
  end.

(** A speed within the top speed either way, with an acceleration that is not
    negative. *)
Definition speed_within (p : AbstractCar) : Prop :=
  Rabs (speed p) <= max_speed p /\ 0 <= acceleration p.

(** A waypoint index within the list, its end included. *)
Definition index_within (c : ComputerCar) : Prop :=
  (0 <= waypoint_index c <= Z.of_nat (length (waypoints c)))%Z.

(** What the loop keeps: the stage within [1 .. LEVELS], the waypoint index
    within the list, the player's speed within its top speed either way. *)
Definition world_ok (w : World) : Prop :=
  (1 <= stage (race_state w) <= LEVELS)%Z /\
  index_within (opponent w) /\
  speed_within (player w).

(** The part of [world_ok] on the two cars, with what no tick changes of a
    world [w0]: the waypoint list and the player's top speed. *)
Definition cars_within (w0 w : World) : Prop :=
  index_within (opponent w) /\
  speed_within (player w) /\
  waypoints (opponent w) = waypoints (opponent w0) /\
  max_speed (player w) = max_speed (player w0).

(** The computer car at its start position. *)
Definition at_start (c : ComputerCar) : Prop :=
  x_pos (car c) = 150 /\ y_pos (car c) = 200.

(** Both cars at their start positions with heading 0, the player at
    rest. *)
Definition parked (w : World) : Prop :=
  x_pos (player w) = 180 /\ y_pos (player w) = 200 /\
  heading (player w) = 0 /\ speed (player w) = 0 /\
  at_start (opponent w) /\ heading (car (opponent w)) = 0.

(** The computer car's speed is the one [advance_level] gives for the stage
    of the race, or 0. *)
Definition difficulty_matches (w : World) : Prop :=
  speed (car (opponent w)) = 0 \/
  speed (car (opponent w))
  = max_speed (car (opponent w)) + IZR (stage (race_state w) - 1) * 0.2.

End Loop.

(** ** A pygame of pixel lists

    A mask is the list of its set pixels, in scan order; a surface has a size
    and its opaque pixels.  A rectangle truncates its corner to integers and
    contains the points of its half-open ranges. *)

Record Image : Type := mkImage {
  im_width : Z;
  im_height : Z;
  im_pixels : list (Z * Z)
}.

Definition pixel_eqb (a b : Z * Z) : bool :=
  ((fst a =? fst b)%Z && (snd a =? snd b)%Z)%bool.

Definition pixels_overlap (self other : list (Z * Z)) (offset : Z * Z)
    : option (Z * Z) :=
  find (fun p =>
          existsb (pixel_eqb ((fst p - fst offset)%Z, (snd p - snd offset)%Z))
            other)
       self.

Definition pixels_collidepoint (x y : R) (w h : Z) (pt : Z * Z) : bool :=
  let left := py_int x in
  let top := py_int y in
  ((left <=? fst pt)%Z && (fst pt <? left + w)%Z
   && (top <=? snd pt)%Z && (snd pt <? top + h)%Z)%bool.

#[local] Instance pixel_pygame : Pygame := {|
  Surface := Image;
  Mask := list (Z * Z);
  mask_from_surface := im_pixels;
  mask_overlap := pixels_overlap;
  get_width := im_width;
  get_height := im_height;
  rect_collidepoint := pixels_collidepoint
|}.

(** A border pixel in the corner of the screen, a finish strip of two rows and
    cars of a single pixel. *)
#[local] Instance pixel_assets : @Assets pixel_pygame := {|
  TRACK_EDGE_MASK := [(0, 0)%Z];
  FINISH_LINE_MASK := [(0, 0); (1, 0); (0, 1); (1, 1)]%Z;
  PLAYER_CAR_IMAGE := mkImage 1 1 [(0, 0)%Z];
  AI_CAR_IMAGE := mkImage 1 1 [(0, 0)%Z]
|}.

(** The same images with the border pixel just above the top-left corner of
    the finish strip. *)
Definition pixel_assets_wall : @Assets pixel_pygame := {|
  TRACK_EDGE_MASK := [(130, 249)%Z];
  FINISH_LINE_MASK := [(0, 0); (1, 0); (0, 1); (1, 1)]%Z;
  PLAYER_CAR_IMAGE := mkImage 1 1 [(0, 0)%Z];
  AI_CAR_IMAGE := mkImage 1 1 [(0, 0)%Z]
|}.

(** A car as its constructor leaves it, moved to [(x, y)] with speed [v]. *)
Definition car_at (c : AbstractCar) (x y : Z) (v : R) : AbstractCar :=
  set_speed v (set_pos (IZR x) (IZR y) c).

(** The two cars and the race state the program starts with. *)
Definition player0 : AbstractCar := PlayerCar_init 4 4.
Definition opponent0 : ComputerCar := ComputerCar_init 2 4 WAYPOINTS.
Definition world0 : World := mkWorld player0 opponent0 (GameInfo_init 1).

Definition no_keys : Keys := mkKeys false false false false.

(** The player at its top speed. *)
Definition player_fast : AbstractCar := set_speed 4 player0.

(** The computer car as the second stage starts. *)
Definition opponent_level2 : ComputerCar :=
  ComputerCar_advance_level 2 opponent0.

(** The computer car past its last waypoint, at [(x, y)] with speed [v]. *)
Definition opponent_done (x y : Z) (v : R) : ComputerCar :=
  {| car := car_at (car opponent0) x y v;
     waypoints := WAYPOINTS;
     waypoint_index := 22 |}.

(** A computer car below its only waypoint, after ninety left turns. *)
Definition steering_car : ComputerCar :=
  with_car (set_heading 360) (ComputerCar_init 2 4 [(150, 100)%Z]).

(** The same car two degrees off the direction of its waypoint. *)
Definition steering_near : ComputerCar :=
  with_car (set_heading 2) (ComputerCar_init 2 4 [(150, 100)%Z]).

(** A running first stage: the player at rest one pixel into the finish
    strip, the computer car elsewhere. *)
Definition world_crossing : World :=
  mkWorld (car_at player0 130 251 0) (opponent_done 178 260 2)
    (start_stage 0 (GameInfo_init 1)).

(** The same with the player on the top row of the strip. *)
Definition world_wrong_side : World :=
  mkWorld (car_at player0 130 250 0) (opponent_done 178 260 2)
    (start_stage 0 (GameInfo_init 1)).

(** A running third stage: the computer car, at the speed 2.4 of that stage,
    reaches the finish strip while the player is elsewhere on the track. *)
Definition world_lost : World :=
  mkWorld (car_at player0 300 300 1) (opponent_done 130 250 2.4)
    (start_stage 0 (GameInfo_init 3)).

(** ** Steering on binary64

    Lines 162-170 of [compute_angle] on the floats Python computes with:
    every subtraction and addition rounds. *)

Module Binary64.

Import PrimFloat.

Definition min64 (a b : float) : float := if ltb b a then b else a.

Definition steer64 (turn h d : float) : float :=
  let angle_delta := sub h d in
  let angle_delta :=
    if leb 180 angle_delta then sub angle_delta 360 else angle_delta in
  if ltb 0 angle_delta then sub h (min64 turn (abs angle_delta))
  else add h (min64 turn (abs angle_delta)).

(** A desired heading of about 1.718 degrees, as a waypoint 3 to the left of
    and 100 above the car gives. *)
Definition desired64 : float := 0x1.b7e64f5bee1b3p+0.

End Binary64.

(** The world after that lost race, its first stage started again. *)
Definition world_after_loss : World :=
  mkWorld player0 (ComputerCar_reset_state (opponent_done 130 250 2.4))
    (start_stage 0 (GameInfo_init 1)).

(** The player driving up the screen at speed 1, one pixel above the finish
    strip. *)
Definition world_double_bounce : World :=
  mkWorld (car_at player0 130 249 1) (opponent_done 178 260 2)
    (start_stage 0 (GameInfo_init 1)).

(** The player reversing at speed 2. *)
Definition player_reversing : AbstractCar := set_speed (-2) player0.

Definition keys_w : Keys := mkKeys false false true false.
Definition keys_a_d : Keys := mkKeys true true false false.

(** * Properties *)

(** ** Python arithmetic *)

Lemma py_min_Rmin (a b : R) : py_min a b = Rmin a b.
Proof.
  unfold py_min, Rmin.
  destruct (Rlt_dec b a), (Rle_dec a b); lra.
Qed.

Lemma py_max_Rmax (a b : R) : py_max a b = Rmax a b.
Proof.
  unfold py_max, Rmax.
  destruct (Rlt_dec a b), (Rle_dec a b); lra.
Qed.

Lemma py_int_IZR (z : Z) : py_int (IZR z) = z.
Proof.
  unfold py_int.
  destruct (Rle_dec 0 (IZR z)) as [_ | _].
  - symmetry. apply Int_part_spec. lra.
  - rewrite <- opp_IZR.
    rewrite <- (Int_part_spec (IZR (- z)) (- z)%Z) by lra.
    lia.
Qed.

Lemma py_int_eq (x : R) (z : Z) : x = IZR z -> py_int x = z.
Proof. intros ->. apply py_int_IZR. Qed.

Lemma py_index_in_range {A : Type} (l : list A) (i : Z) :
  (0 <= i < Z.of_nat (length l))%Z -> exists a, py_index l i = Ok a.
Proof.
  intros [Hlo Hhi]. unfold py_index.
  destruct (i <? 0)%Z eqn:Hneg; [apply Z.ltb_lt in Hneg; lia |].
  apply Z.leb_le in Hlo as ->. apply Z.ltb_lt in Hhi as Hlt. rewrite Hlt.
  simpl.
  destruct (nth_error l (Z.to_nat i)) as [a |] eqn:Hnth; [now exists a |].
  apply nth_error_None in Hnth. lia.
Qed.

Lemma bind_Ok {A B : Type} (m : Exc A) (k : A -> Exc B) (b : B) :
  bind m k = Ok b -> exists a, m = Ok a /\ k a = Ok b.
Proof.
  destruct m as [a | e]; simpl; [intros H; now exists a | discriminate].
Qed.

Ltac bind_inv H :=
  let a := fresh "a" in
  let Ha := fresh "Ha" in
  apply bind_Ok in H; destruct H as (a & Ha & H).

Section Properties.

Context {pg : Pygame} {assets : Assets}.

(** ** GameInfo *)

(** C6: [is_game_finished] answers true exactly when the stage is above 10;
    [advance_level] adds one to the stage, clears [in_progress] and leaves the
    only other field, the start time, as it was. *)
Theorem game_info_finished_and_advance (g : GameInfo) :
  (is_game_finished g = true <-> (stage g > 10)%Z) /\
  stage (GameInfo_advance_level g) = (stage g + 1)%Z /\
  in_progress (GameInfo_advance_level g) = false /\
  stage_start_time (GameInfo_advance_level g) = stage_start_time g.
Proof.
  unfold is_game_finished, LEVELS. simpl.
  repeat split; try (rewrite Z.ltb_lt in *; lia).
Qed.

(** ** What the motion of a computer car keeps *)

Lemma desired_angle_rad_total (x y : R) (target : Z * Z) :
  exists a, desired_angle_rad x y target = Ok a.
Proof.
  unfold desired_angle_rad, py_div.
  destruct (Req_dec_T (IZR (snd target) - y) 0); simpl; eauto.
Qed.

Lemma compute_angle_frame (c c' : ComputerCar) :
  compute_angle c = Ok c' ->
  waypoints c' = waypoints c /\ waypoint_index c' = waypoint_index c /\
  speed (car c') = speed (car c) /\ max_speed (car c') = max_speed (car c) /\
  acceleration (car c') = acceleration (car c) /\
  x_pos (car c') = x_pos (car c) /\ y_pos (car c') = y_pos (car c).
Proof.
  unfold compute_angle. intros H.
  bind_inv H. bind_inv H. injection H as <-. simpl. tauto.
Qed.

Lemma advance_waypoint_frame (c c' : ComputerCar) :
  advance_waypoint c = Ok c' ->
  waypoints c' = waypoints c /\ car c' = car c /\
  (waypoint_index c' = waypoint_index c \/
   waypoint_index c' = (waypoint_index c + 1)%Z).
Proof.
  unfold advance_waypoint. intros H. bind_inv H.
  destruct rect_collidepoint; injection H as <-; simpl; tauto.
Qed.

Lemma update_motion_frame (c c' : ComputerCar) :
  ComputerCar_update_motion c = Ok c' ->
  waypoints c' = waypoints c /\
  (waypoint_index c <= waypoint_index c' <= waypoint_index c + 1)%Z /\
  speed (car c') = speed (car c) /\ max_speed (car c') = max_speed (car c) /\
  acceleration (car c') = acceleration (car c).
Proof.
  unfold ComputerCar_update_motion. intros H.
  destruct (Z.of_nat (length (waypoints c)) <=? waypoint_index c)%Z.
  - injection H as <-. repeat split; lia.
  - bind_inv H. bind_inv H. injection H as <-.
    apply compute_angle_frame in Ha as (Hw & Hi & Hs & Hm & Hacc & _).
    apply advance_waypoint_frame in Ha0 as (Hw' & Hc & Hi').
    simpl. rewrite Hc, Hw', Hw, Hs, Hm, Hacc.
    repeat split; lia.
Qed.

(** The guard of [update_motion] keeps both list accesses in range as soon as
    the index is not negative. *)
Lemma update_motion_total (c : ComputerCar) :
  (0 <= waypoint_index c)%Z ->
  exists c', ComputerCar_update_motion c = Ok c'.
Proof.
  intros Hidx. unfold ComputerCar_update_motion.
  destruct (Z.of_nat (length (waypoints c)) <=? waypoint_index c)%Z eqn:Hlen;
    [eauto |].
  apply Z.leb_gt in Hlen.
  destruct (py_index_in_range (waypoints c) (waypoint_index c)) as [t Ht];
    [lia |].
  destruct (desired_angle_rad_total (x_pos (car c)) (y_pos (car c)) t)
    as [a Ha].
  unfold compute_angle, advance_waypoint.
  rewrite Ht. simpl. rewrite Ha. simpl. rewrite Ht. simpl.
  destruct rect_collidepoint; simpl; eauto.
Qed.

(** ** Speed *)

Ltac speed_arith :=
  unfold speed_in_bounds, forward_speed, backward_speed in *; simpl in *;
  unfold py_min, py_max in *;
  repeat match goal with
         | |- context [Rlt_dec ?a ?b] => destruct (Rlt_dec a b)
         end;
  simpl in *; try lra.

Lemma forward_speed_min (c : AbstractCar) :
  speed (forward_speed c) = Rmin (speed c + acceleration c) (max_speed c) /\
  max_speed (forward_speed c) = max_speed c.
Proof.
  split; [| reflexivity].
  unfold forward_speed. simpl. apply py_min_Rmin.
Qed.

Lemma player_op_bounds (op : PlayerOp) (p : AbstractCar) :
  keeps_bounds op = true ->
  0 <= acceleration p ->
  speed_in_bounds p ->
  speed_in_bounds (run_player_op op p).
Proof.
  intros Hop Hacc Hb.
  destruct op as [[|] [|] | | | | | |]; simpl in Hop; try discriminate;
    unfold run_player_op, PlayerCar_accelerate_forward,
      PlayerCar_accelerate_backward, apply_friction, PlayerCar_reset_state,
      AbstractCar_reset_state, rotate;
    speed_arith.
Qed.

Lemma computer_accelerate_forward_speed (c : ComputerCar) :
  (0 <= waypoint_index c)%Z ->
  exists c', ComputerCar_accelerate_forward c = Ok c' /\
    speed (car c') = Rmin (speed (car c) + acceleration (car c))
                       (max_speed (car c)) /\
    max_speed (car c') = max_speed (car c).
Proof.
  intros Hidx. unfold ComputerCar_accelerate_forward.
  destruct (update_motion_total (with_car forward_speed c) Hidx) as [c' Hc'].
  exists c'. split; [exact Hc' |].
  apply update_motion_frame in Hc' as (_ & _ & Hs & Hm & _).
  rewrite Hs, Hm. simpl. apply forward_speed_min.
Qed.

Lemma computer_op_bounds (op : ComputerOp) (c : ComputerCar) :
  computer_keeps_bounds op = true ->
  0 <= acceleration (car c) ->
  (0 <= waypoint_index c)%Z ->
  speed_in_bounds (car c) ->
  exists c', run_computer_op op c = Ok c' /\ speed_in_bounds (car c').
Proof.
  intros Hop Hacc Hidx Hb.
  destruct op as [l r | | | | | st]; simpl in Hop; try discriminate; simpl.
  - eexists; split; [reflexivity |].
    destruct l, r; unfold ComputerCar_rotate, rotate; speed_arith.
  - unfold ComputerCar_accelerate_forward.
    destruct (update_motion_total (with_car forward_speed c) Hidx)
      as [c' Hc'].
    exists c'; split; [exact Hc' |].
    apply update_motion_frame in Hc' as (_ & _ & Hs & Hm & _).
    unfold speed_in_bounds. rewrite Hs, Hm. speed_arith.
  - unfold ComputerCar_accelerate_backward.
    destruct (update_motion_total (with_car backward_speed c) Hidx)
      as [c' Hc'].
    exists c'; split; [exact Hc' |].
    apply update_motion_frame in Hc' as (_ & _ & Hs & Hm & _).
    unfold speed_in_bounds. rewrite Hs, Hm. speed_arith.
  - destruct (update_motion_total c Hidx) as [c' Hc'].
    exists c'; split; [exact Hc' |].
    apply update_motion_frame in Hc' as (_ & _ & Hs & Hm & _).
    unfold speed_in_bounds. rewrite Hs, Hm. exact Hb.
  - eexists; split; [reflexivity |].
    unfold ComputerCar_reset_state, AbstractCar_reset_state. speed_arith.
Qed.

(** C1, amended: from a speed in [[-max_speed/2, max_speed]], [rotate],
    [accelerate_forward], [accelerate_backward], [apply_friction],
    [update_motion] and [reset_state] leave the speed in that range, on a
    player car and on a computer car (whose calls also return).  [bounce]
    negates the speed, which from that range lands in
    [[-max_speed, max_speed/2]], and the computer car's [advance_level] sets
    the speed to [max_speed + (stage - 1) * 0.2].  The acceleration is the
    constructor's 0.1; its sign is all that is used. *)
Theorem speed_bounds_kept :
  (forall (op : PlayerOp) (p : AbstractCar),
     keeps_bounds op = true ->
     0 <= acceleration p ->
     speed_in_bounds p ->
     speed_in_bounds (run_player_op op p)) /\
  (forall p : AbstractCar,
     speed_in_bounds p ->
     speed (bounce p) = - speed p /\
     max_speed (bounce p) = max_speed p /\
     - max_speed p <= speed (bounce p) <= max_speed p / 2) /\
  (forall (op : ComputerOp) (c : ComputerCar),
     computer_keeps_bounds op = true ->
     0 <= acceleration (car c) ->
     (0 <= waypoint_index c)%Z ->
     speed_in_bounds (car c) ->
     exists c', run_computer_op op c = Ok c' /\ speed_in_bounds (car c')) /\
  (forall (stage : Z) (c : ComputerCar),
     speed (car (ComputerCar_advance_level stage c)) =
       max_speed (car c) + IZR (stage - 1) * 0.2 /\
     max_speed (car (ComputerCar_advance_level stage c)) = max_speed (car c)).
Proof.
  split; [exact player_op_bounds |].
  split; [| split; [exact computer_op_bounds |]].
  - intros p Hb. unfold bounce. speed_arith.
  - intros st c. split; reflexivity.
Qed.

(** C8, amended: [accelerate_forward] leaves the speed at
    [min(speed + acceleration, max_speed)], which never exceeds [max_speed];
    it is not below the previous speed when that speed was at most
    [max_speed] (the acceleration being the constructor's 0.1, of which the
    sign is used).  On a computer car the call dispatches to the overriding
    [update_motion], which returns when the waypoint index is not negative. *)
Theorem accelerate_forward_speed :
  (forall p : AbstractCar,
     speed (PlayerCar_accelerate_forward p) =
       Rmin (speed p + acceleration p) (max_speed p) /\
     speed (PlayerCar_accelerate_forward p) <= max_speed p /\
     (0 <= acceleration p -> speed p <= max_speed p ->
      speed p <= speed (PlayerCar_accelerate_forward p))) /\
  (forall c : ComputerCar,
     (0 <= waypoint_index c)%Z ->
     exists c', ComputerCar_accelerate_forward c = Ok c' /\
       speed (car c') =
         Rmin (speed (car c) + acceleration (car c)) (max_speed (car c)) /\
       speed (car c') <= max_speed (car c) /\
       (0 <= acceleration (car c) -> speed (car c) <= max_speed (car c) ->
        speed (car c) <= speed (car c'))).
Proof.
  split.
  - intros p. unfold PlayerCar_accelerate_forward.
    change (speed (AbstractCar_update_motion (forward_speed p)))
      with (speed (forward_speed p)).
    rewrite (proj1 (forward_speed_min p)).
    unfold Rmin. destruct (Rle_dec _ _); repeat split; intros; lra.
  - intros c Hidx.
    destruct (computer_accelerate_forward_speed c Hidx) as (c' & Hc' & Hs & _).
    exists c'. split; [exact Hc' |]. rewrite Hs.
    unfold Rmin. destruct (Rle_dec _ _); repeat split; intros; lra.
Qed.

(** C9: with every waypoint consumed, [update_motion] on the computer car
    returns the car it was given: position, heading, speed and waypoint index
    are all as before. *)
Theorem update_motion_exhausted (c : ComputerCar) :
  (Z.of_nat (length (waypoints c)) <= waypoint_index c)%Z ->
  ComputerCar_update_motion c = Ok c.
Proof.
  intros H. unfold ComputerCar_update_motion.
  apply Z.leb_le in H. now rewrite H.
Qed.

(** ** No operation raises *)

Lemma computer_op_index (op : ComputerOp) (c c' : ComputerCar) :
  (0 <= waypoint_index c)%Z ->
  run_computer_op op c = Ok c' ->
  (0 <= waypoint_index c')%Z.
Proof.
  intros Hidx Hrun.
  destruct op as [l r | | | | | st]; simpl in Hrun;
    try (injection Hrun as <-; simpl; lia);
    apply update_motion_frame in Hrun as (_ & Hi & _); simpl in Hi; lia.
Qed.

Lemma computer_op_total (op : ComputerOp) (c : ComputerCar) :
  (0 <= waypoint_index c)%Z ->
  exists c', run_computer_op op c = Ok c'.
Proof.
  intros Hidx.
  destruct op as [l r | | | | | st]; simpl; eauto;
    apply update_motion_total; exact Hidx.
Qed.

Lemma reachable_index (c0 c : ComputerCar) :
  (0 <= waypoint_index c0)%Z ->
  computer_reachable c0 c ->
  (0 <= waypoint_index c)%Z.
Proof.
  intros H0 Hreach. induction Hreach as [| c c' op _ IH Hrun].
  - exact H0.
  - exact (computer_op_index op c c' IH Hrun).
Qed.

(** C5: a computer car driven from its constructor by any sequence of
    [rotate], [accelerate_forward], [accelerate_backward], [update_motion],
    [reset_state] and [advance_level] has a waypoint index that is not
    negative, and from there every one of these operations returns: the two
    list accesses behind the guard of [update_motion] are in range and the
    division of [compute_angle] has a divisor that is not zero.  The
    operations of the player car use no list and no division; they are total
    functions of the car. *)
Theorem computer_car_never_raises
    (max turn : R) (wps : list (Z * Z)) (c : ComputerCar) :
  computer_reachable (ComputerCar_init max turn wps) c ->
  (0 <= waypoint_index c)%Z /\
  (forall op : ComputerOp, exists c', run_computer_op op c = Ok c') /\
  ((waypoint_index c < Z.of_nat (length (waypoints c)))%Z ->
   exists target, py_index (waypoints c) (waypoint_index c) = Ok target).
Proof.
  intros Hreach.
  assert (Hidx : (0 <= waypoint_index c)%Z).
  { apply (reachable_index (ComputerCar_init max turn wps)); [| exact Hreach].
    simpl. lia. }
  split; [exact Hidx |]. split.
  - intros op. apply computer_op_total, Hidx.
  - intros Hlt. apply py_index_in_range. lia.
Qed.

(** ** Steering *)

Lemma steer_cases (turn h d : R) :
  let delta := if Rle_dec 180 (h - d) then h - d - 360 else h - d in
  (Rabs delta <= turn -> steer turn h d = h - delta) /\
  (Rabs delta > turn ->
   steer turn h d = if Rlt_dec 0 delta then h - turn else h + turn).
Proof.
  unfold steer, py_min.
  destruct (Rle_dec 180 (h - d)); simpl;
    match goal with
    | |- context [Rabs ?x] =>
        unfold Rabs; destruct (Rcase_abs x); destruct (Rlt_dec 0 x);
        match goal with
        | |- context [Rlt_dec ?a ?b] => destruct (Rlt_dec a b)
        end
    end;
    split; intros; lra.
Qed.

(** C4, amended: let [delta] be the difference the code computes, [H - D],
    less 360 when [H - D >= 180].  One [compute_angle] call whose waypoint
    exists sets the heading to [H - delta] when [|delta| <= turn_speed], and
    to [H - turn_speed] when [delta > 0], to [H + turn_speed] otherwise, when
    [|delta| > turn_speed].  So where [H - D < 180] the heading becomes
    [H - (H - D)] when [|H - D| <= turn_speed], which the two rounded
    subtractions of the program need not make [D], and moves by [turn_speed]
    toward [D] when [|H - D| > turn_speed]. *)
Theorem compute_angle_steering (c : ComputerCar) (target : Z * Z) (a : R) :
  py_index (waypoints c) (waypoint_index c) = Ok target ->
  desired_angle_rad (x_pos (car c)) (y_pos (car c)) target = Ok a ->
  let H := heading (car c) in
  let D := degrees a in
  let turn := turn_speed (car c) in
  let delta := if Rle_dec 180 (H - D) then H - D - 360 else H - D in
  exists c', compute_angle c = Ok c' /\
    (Rabs delta <= turn -> heading (car c') = H - delta) /\
    (Rabs delta > turn ->
     heading (car c') = if Rlt_dec 0 delta then H - turn else H + turn) /\
    (H - D < 180 ->
     (Rabs (H - D) <= turn -> heading (car c') = H - (H - D)) /\
     (Rabs (H - D) > turn ->
      (D < H -> heading (car c') = H - turn) /\
      (H < D -> heading (car c') = H + turn))).
Proof.
  intros Ht Ha H D turn delta.
  eexists. split.
  { unfold compute_angle. rewrite Ht. simpl. rewrite Ha. simpl. reflexivity. }
  simpl. fold H D turn.
  destruct (steer_cases turn H D) as [Hnear Hfar]. fold delta in Hnear, Hfar.
  split; [exact Hnear |]. split; [exact Hfar |].
  intros Hwrap. subst delta.
  destruct (Rle_dec 180 (H - D)) as [Hge | _]; [lra |].
  split.
  - exact Hnear.
  - intros Hgt. rewrite (Hfar Hgt).
    destruct (Rlt_dec 0 (H - D)); split; intros; lra.
Qed.

(** ** The collision handler *)

Lemma border_step_opponent (w : World) :
  opponent (border_step w) = opponent w /\
  race_state (border_step w) = race_state w.
Proof. unfold border_step. destruct collides_with; split; reflexivity. Qed.

Lemma opponent_finish_step_index (w : World) :
  waypoint_index (opponent (opponent_finish_step w)) =
  waypoint_index (opponent w).
Proof. unfold opponent_finish_step. destruct collides_with; reflexivity. Qed.

Lemma game_finished_step_index (w : World) :
  waypoint_index (opponent (game_finished_step w)) =
  waypoint_index (opponent w).
Proof. unfold game_finished_step. destruct is_game_finished; reflexivity. Qed.

Lemma player_finish_step_index (w : World) :
  (completes_stage w = false ->
   opponent (player_finish_step w) = opponent w) /\
  (completes_stage w = true ->
   waypoint_index (opponent (player_finish_step w)) = 0%Z).
Proof.
  unfold completes_stage, player_finish_step.
  destruct (player_finish_poi w) as [poi |]; [| split; [easy | discriminate]].
  destruct (snd poi =? 0)%Z; simpl; split; easy.
Qed.

(** C10: with no overlap between the player and the track border, between the
    computer car and the finish line, and between the player and the finish
    line, [handle_collision] returns the world it was given: race state,
    player car and computer car are unchanged. *)
Theorem handle_collision_idle (w : World) :
  collides_with (player w) TRACK_EDGE_MASK 0 0 = None ->
  collides_with (car (opponent w)) FINISH_LINE_MASK
    (fst FINISH_POS) (snd FINISH_POS) = None ->
  collides_with (player w) FINISH_LINE_MASK
    (fst FINISH_POS) (snd FINISH_POS) = None ->
  handle_collision w = w.
Proof.
  intros Hedge Hopp Hplayer.
  unfold handle_collision, border_step. rewrite Hedge.
  unfold opponent_finish_step. rewrite Hopp.
  unfold player_finish_step, player_finish_poi. now rewrite Hplayer.
Qed.

(** C2: let [w2] be the world in which the player's finish-line test of
    [handle_collision] runs, after the border test and the computer car's
    finish-line test.  When that test finds the overlap point [poi]: with
    [poi[1] = 0] the player bounces, its speed negated, and stage and computer
    car stay as in [w2]; with [poi[1] > 0] the stage is one more than in [w2],
    the player is at (180, 200) with heading 0 and speed 0, and the computer
    car has speed [max_speed + (new stage - 1) * 0.2] and waypoint index 0,
    which from stage 1 is [max_speed + 0.2].  [w2] is the world the handler
    was given when neither of the two earlier tests finds an overlap. *)
Theorem player_finish_outcome (w : World) (poi : Z * Z) :
  let w2 := opponent_finish_step (border_step w) in
  let w' := handle_collision w in
  player_finish_poi w2 = Some poi ->
  (collides_with (player w) TRACK_EDGE_MASK 0 0 = None ->
   collides_with (car (opponent w)) FINISH_LINE_MASK
     (fst FINISH_POS) (snd FINISH_POS) = None ->
   w2 = w) /\
  (snd poi = 0%Z ->
   player w' = bounce (player w2) /\
   speed (player w') = - speed (player w2) /\
   race_state w' = race_state w2 /\
   opponent w' = opponent w2) /\
  ((0 < snd poi)%Z ->
   stage (race_state w') = (stage (race_state w2) + 1)%Z /\
   in_progress (race_state w') = false /\
   x_pos (player w') = 180 /\ y_pos (player w') = 200 /\
   heading (player w') = 0 /\ speed (player w') = 0 /\
   speed (car (opponent w')) =
     max_speed (car (opponent w)) + IZR (stage (race_state w') - 1) * 0.2 /\
   waypoint_index (opponent w') = 0%Z /\
   x_pos (car (opponent w')) = 150 /\ y_pos (car (opponent w')) = 200 /\
   heading (car (opponent w')) = 0 /\
   (stage (race_state w2) = 1%Z ->
    stage (race_state w') = 2%Z /\
    speed (car (opponent w')) = max_speed (car (opponent w)) + 0.2)).
Proof.
  intros w2 w' Hpoi.
  assert (Hmax : max_speed (car (opponent w2)) = max_speed (car (opponent w))).
  { subst w2. unfold opponent_finish_step.
    destruct collides_with; simpl;
      now rewrite (proj1 (border_step_opponent w)). }
  subst w'. unfold handle_collision. fold w2.
  unfold player_finish_step. rewrite Hpoi.
  split; [| split].
  - intros Hedge Hopp. subst w2. unfold border_step. rewrite Hedge.
    unfold opponent_finish_step. now rewrite Hopp.
  - intros Hy. apply Z.eqb_eq in Hy. rewrite Hy. simpl. auto.
  - intros Hy. assert (Hne : (snd poi =? 0)%Z = false) by (apply Z.eqb_neq; lia).
    rewrite Hne. simpl. rewrite Hmax.
    repeat (split; [reflexivity |]).
    intros Hstage. rewrite Hstage. split; [reflexivity | simpl; lra].
Qed.

(** What the handler does when the computer car is on the finish line
    (lines 242-248): the race state and the player are as at the start of the
    program, the computer car is at its start position with heading 0, but
    with speed 0 and the waypoint index it had. *)
Lemma opponent_finish_step_reset (w : World) (poi : Z * Z) :
  collides_with (car (opponent w)) FINISH_LINE_MASK
    (fst FINISH_POS) (snd FINISH_POS) = Some poi ->
  let w' := opponent_finish_step w in
  race_state w' = GameInfo_init 1 /\
  player w' = PlayerCar_reset_state (player w) /\
  x_pos (car (opponent w')) = 150 /\ y_pos (car (opponent w')) = 200 /\
  heading (car (opponent w')) = 0 /\
  speed (car (opponent w')) = 0 /\
  waypoint_index (opponent w') = waypoint_index (opponent w).
Proof.
  intros Hpoi. unfold opponent_finish_step. rewrite Hpoi. simpl.
  repeat split; reflexivity.
Qed.

(** ** One tick *)

Lemma tick_motion_total (keys : Keys) (now : R) (w : World) :
  (0 <= waypoint_index (opponent w))%Z ->
  exists w1, tick_motion keys now w = Ok w1 /\
    (waypoint_index (opponent w) <= waypoint_index (opponent w1))%Z.
Proof.
  intros Hidx. unfold tick_motion.
  assert (Hopp : opponent (wait_for_start now w) = opponent w).
  { unfold wait_for_start. now destruct in_progress. }
  rewrite Hopp.
  destruct (update_motion_total (opponent w) Hidx) as [o Ho].
  rewrite Ho. simpl. eexists. split; [reflexivity |]. simpl.
  apply update_motion_frame in Ho. lia.
Qed.

(** C7, amended: across a tick the waypoint index of the computer car does
    not decrease unless the player completes a stage in that tick, in which
    case [advance_level] sets it to 0.  [w2] is the world in which the
    player's finish-line test of the tick runs; the tick returns whenever the
    index is not negative. *)
Theorem waypoint_index_across_tick (keys : Keys) (now : R) (w : World) :
  (0 <= waypoint_index (opponent w))%Z ->
  exists w2 w',
    before_player_finish keys now w = Ok w2 /\
    tick keys now w = Ok w' /\
    (completes_stage w2 = false ->
     (waypoint_index (opponent w) <= waypoint_index (opponent w'))%Z) /\
    (completes_stage w2 = true ->
     waypoint_index (opponent w') = 0%Z).
Proof.
  intros Hidx.
  destruct (tick_motion_total keys now w Hidx) as (w1 & Hw1 & Hle).
  exists (opponent_finish_step (border_step w1)).
  exists (game_finished_step (handle_collision w1)).
  unfold before_player_finish, tick. rewrite Hw1. simpl.
  split; [reflexivity |]. split; [reflexivity |].
  rewrite game_finished_step_index. unfold handle_collision.
  destruct (player_finish_step_index (opponent_finish_step (border_step w1)))
    as [Hkeep Hzero].
  split.
  - intros Hno. rewrite (Hkeep Hno), opponent_finish_step_index.
    now rewrite (proj1 (border_step_opponent w1)).
  - exact Hzero.
Qed.

Lemma apply_friction_at_rest (p : AbstractCar) :
  speed p = 0 -> 0 <= acceleration p -> apply_friction p = p.
Proof.
  intros Hs Ha. destruct p as [im m v t h x y a]. simpl in *. subst v.
  unfold apply_friction, AbstractCar_update_motion, set_speed, set_pos.
  simpl.
  assert (Hmax : py_max (0 - a / 2) 0 = 0).
  { unfold py_max. destruct (Rlt_dec (0 - a / 2) 0); lra. }
  rewrite Hmax. f_equal; lra.
Qed.

Lemma player_finish_step_credit (w : World) (poi : Z * Z) :
  player_finish_poi w = Some poi ->
  snd poi <> 0%Z ->
  player_finish_step w =
  {| player := PlayerCar_reset_state (player w);
     opponent :=
       ComputerCar_advance_level (stage (race_state w) + 1) (opponent w);
     race_state := GameInfo_advance_level (race_state w) |}.
Proof.
  intros Hpoi Hy. unfold player_finish_step. rewrite Hpoi.
  apply Z.eqb_neq in Hy. now rewrite Hy.
Qed.

Lemma tick_motion_at_rest (now : R) (w : World) :
  in_progress (race_state w) = true ->
  speed (player w) = 0 ->
  0 <= acceleration (player w) ->
  (Z.of_nat (length (waypoints (opponent w))) <= waypoint_index (opponent w))%Z ->
  tick_motion no_keys now w = Ok w.
Proof.
  intros Hrun Hs Ha Hidx. unfold tick_motion, wait_for_start. rewrite Hrun.
  unfold ComputerCar_update_motion. apply Z.leb_le in Hidx. rewrite Hidx.
  cbn [bind]. change (move_player no_keys (player w))
    with (apply_friction (player w)).
  rewrite (apply_friction_at_rest _ Hs Ha). now destruct w.
Qed.

End Properties.

(** * The properties on concrete worlds *)

Lemma pixel_collides_with (c : AbstractCar) (mask : list (Z * Z))
    (x y a b : Z) :
  x_pos c = IZR a ->
  y_pos c = IZR b ->
  collides_with c mask x y =
  pixels_overlap mask (im_pixels (sprite c)) ((a - x)%Z, (b - y)%Z).
Proof.
  intros Hx Hy. unfold collides_with. simpl.
  rewrite Hx, Hy, <- !minus_IZR, !py_int_IZR. reflexivity.
Qed.

Ltac eval_collides a b :=
  rewrite (pixel_collides_with _ _ _ _ a b) by reflexivity.

Lemma desired_angle_straight_up :
  desired_angle_rad 150 200 (150, 100)%Z = Ok 0.
Proof.
  unfold desired_angle_rad, py_div. cbn [fst snd].
  destruct (Req_dec_T (100 - 200) 0) as [E | _]; [lra |].
  cbn [bind].
  destruct (Rlt_dec 200 100) as [E | _]; [lra |].
  f_equal. replace ((150 - 150) / (100 - 200)) with 0 by lra.
  exact atan_0.
Qed.

(** C1 fails as stated: the player at its top speed 4 is within
    [[-2, 4]], and [bounce] leaves it at speed -4; the computer car starts
    with speed 2 within [[-1, 2]], and [advance_level 2] leaves it at 2.2. *)
Lemma bounce_leaves_bounds :
  (speed_in_bounds player_fast /\
   ~ speed_in_bounds (run_player_op PBounce player_fast)) /\
  (speed_in_bounds (car opponent0) /\
   exists c', run_computer_op (CAdvanceLevel 2) opponent0 = Ok c' /\
     ~ speed_in_bounds (car c')).
Proof.
  unfold speed_in_bounds. simpl. repeat split; try lra.
  eexists. split; [reflexivity |]. simpl. lra.
Qed.

Lemma speed_bounds_kept_witness :
  speed_in_bounds (run_player_op PAccelerateForward player0) /\
  (exists c', run_computer_op CUpdateMotion opponent0 = Ok c' /\
     speed_in_bounds (car c')).
Proof.
  split.
  - apply (proj1 speed_bounds_kept PAccelerateForward player0).
    + reflexivity.
    + simpl. lra.
    + unfold speed_in_bounds. simpl. lra.
  - apply (proj1 (proj2 (proj2 speed_bounds_kept)) CUpdateMotion opponent0).
    + reflexivity.
    + simpl. lra.
    + simpl. lia.
    + unfold speed_in_bounds. simpl. lra.
Defined.

(** C8 fails as stated: as stage 2 starts the computer car has speed 2.2
    with [max_speed] 2, and [accelerate_forward] leaves it at speed 2. *)
Lemma accelerate_forward_slows_level2 :
  exists c', ComputerCar_accelerate_forward opponent_level2 = Ok c' /\
    speed (car c') < speed (car opponent_level2).
Proof.
  destruct (computer_accelerate_forward_speed opponent_level2)
    as (c' & Hrun & Hs & _); [simpl; lia |].
  exists c'. split; [exact Hrun |].
  rewrite Hs. simpl. unfold Rmin.
  destruct (Rle_dec _ _); lra.
Qed.

Lemma accelerate_forward_speed_witness :
  speed player0 <= speed (PlayerCar_accelerate_forward player0) /\
  (exists c', ComputerCar_accelerate_forward opponent0 = Ok c' /\
     speed (car c') <= max_speed (car opponent0)).
Proof.
  split.
  - apply (proj1 accelerate_forward_speed player0); simpl; lra.
  - destruct (proj2 accelerate_forward_speed opponent0) as (c' & Hrun & _ & Hle & _).
    + simpl. lia.
    + exists c'. split; [exact Hrun | exact Hle].
Defined.

Lemma update_motion_exhausted_witness :
  ComputerCar_update_motion (opponent_done 178 260 2)
  = Ok (opponent_done 178 260 2).
Proof.
  apply (update_motion_exhausted (opponent_done 178 260 2)).
  simpl. lia.
Defined.

Lemma computer_car_never_raises_witness :
  exists c', run_computer_op CUpdateMotion opponent_level2 = Ok c'.
Proof.
  apply (computer_car_never_raises 2 4 WAYPOINTS opponent_level2).
  apply (reach_step _ opponent0 _ (CAdvanceLevel 2)).
  - apply reach_init.
  - reflexivity.
Defined.

(** C4 fails as stated: the waypoint is straight above the car, so the
    desired heading is 0; the heading is 360 and the turn speed 4.  The
    difference 360 is above the turn speed, yet the call leaves the heading
    at 360 instead of moving it to 356. *)
Lemma steering_full_turn_stalls :
  exists a c',
    desired_angle_rad (x_pos (car steering_car)) (y_pos (car steering_car))
      (150, 100)%Z = Ok a /\
    compute_angle steering_car = Ok c' /\
    Rabs (heading (car steering_car) - degrees a)
      > turn_speed (car steering_car) /\
    degrees a < heading (car steering_car) /\
    heading (car c') = heading (car steering_car) /\
    heading (car c')
      <> heading (car steering_car) - turn_speed (car steering_car).
Proof.
  exists 0. eexists.
  split; [exact desired_angle_straight_up |].
  split.
  { unfold compute_angle.
    change (py_index (waypoints steering_car) (waypoint_index steering_car))
      with (Ok (150, 100)%Z).
    cbn [bind].
    change (desired_angle_rad _ _ (150, 100)%Z)
      with (desired_angle_rad 150 200 (150, 100)%Z).
    rewrite desired_angle_straight_up. cbn [bind]. reflexivity. }
  assert (Hd : degrees 0 = 0) by (unfold degrees; lra).
  assert (Hsteer : steer 4 360 (degrees 0) = 360).
  { rewrite Hd. unfold steer, py_min.
    destruct (Rle_dec 180 (360 - 0)) as [_ | N]; [| lra].
    destruct (Rlt_dec 0 (360 - 0 - 360)) as [E | _]; [lra |].
    rewrite Rabs_pos_eq by lra.
    destruct (Rlt_dec (360 - 0 - 360) 4); lra. }
  cbn [car with_car steering_car heading set_heading turn_speed
       ComputerCar_init set_speed AbstractCar_init].
  rewrite Hsteer, Hd.
  rewrite Rabs_pos_eq by lra.
  repeat split; lra.
Qed.

Lemma compute_angle_steering_witness :
  exists c', compute_angle steering_near = Ok c' /\ heading (car c') = 0.
Proof.
  assert (Hd : degrees 0 = 0) by (unfold degrees; lra).
  destruct (compute_angle_steering steering_near (150, 100)%Z 0 eq_refl
              desired_angle_straight_up) as (c' & Hrun & _ & _ & Hnear).
  exists c'. split; [exact Hrun |].
  cbn [car with_car steering_near heading set_heading turn_speed
       ComputerCar_init set_speed AbstractCar_init] in Hnear.
  rewrite Hd in Hnear.
  destruct Hnear as [Hset _]; [lra |].
  rewrite Hset; [lra |]. rewrite Rabs_pos_eq; lra.
Defined.

Module Binary64Facts.

Import PrimFloat.

(** On binary64 the heading need not land on the desired one even where no
    wrap is involved: from heading 4 with turn speed 4 the difference to
    [desired64] is within the turn speed, and the call leaves the heading
    one unit in the last place above it; from heading -1 the call takes the
    heading from below the desired heading to above it. *)
Lemma steering_rounding_misses :
  ltb (abs (sub 4 Binary64.desired64)) 4 = true /\
  eqb (Binary64.steer64 4 4 Binary64.desired64) Binary64.desired64 = false /\
  Binary64.steer64 4 4 Binary64.desired64 = 0x1.b7e64f5bee1b4p+0%float /\
  ltb (-1) Binary64.desired64 = true /\
  ltb Binary64.desired64 (Binary64.steer64 4 (-1) Binary64.desired64) = true.
Proof. repeat split; vm_compute; reflexivity. Qed.

End Binary64Facts.

(** ** Worlds in the collision handler *)

Lemma world_crossing_before_finish :
  opponent_finish_step (border_step world_crossing) = world_crossing.
Proof.
  unfold border_step. eval_collides 130%Z 251%Z.
  change (pixels_overlap _ _ _) with (@None (Z * Z)). cbv iota.
  unfold opponent_finish_step. eval_collides 178%Z 260%Z.
  reflexivity.
Qed.

Lemma world_crossing_poi :
  player_finish_poi world_crossing = Some (0, 1)%Z.
Proof.
  unfold player_finish_poi. eval_collides 130%Z 251%Z. reflexivity.
Qed.

Lemma world_wrong_side_before_finish :
  opponent_finish_step (border_step world_wrong_side) = world_wrong_side.
Proof.
  unfold border_step. eval_collides 130%Z 250%Z.
  change (pixels_overlap _ _ _) with (@None (Z * Z)). cbv iota.
  unfold opponent_finish_step. eval_collides 178%Z 260%Z.
  reflexivity.
Qed.

Lemma world_wrong_side_poi :
  player_finish_poi world_wrong_side = Some (0, 0)%Z.
Proof.
  unfold player_finish_poi. eval_collides 130%Z 250%Z. reflexivity.
Qed.

Lemma handle_collision_idle_witness : handle_collision world0 = world0.
Proof.
  apply (handle_collision_idle world0).
  - eval_collides 180%Z 200%Z. reflexivity.
  - eval_collides 150%Z 200%Z. reflexivity.
  - eval_collides 180%Z 200%Z. reflexivity.
Defined.

Lemma player_finish_outcome_witness :
  speed (player (handle_collision world_wrong_side))
    = - speed (player world_wrong_side) /\
  stage (race_state (handle_collision world_crossing)) = 2%Z /\
  speed (car (opponent (handle_collision world_crossing))) = 2 + 0.2.
Proof.
  split.
  - assert (Hpoi : player_finish_poi
                     (opponent_finish_step (border_step world_wrong_side))
                   = Some (0, 0)%Z).
    { rewrite world_wrong_side_before_finish. exact world_wrong_side_poi. }
    destruct (player_finish_outcome world_wrong_side (0, 0)%Z Hpoi)
      as (_ & Hbounce & _).
    destruct (Hbounce eq_refl) as (_ & Hs & _).
    rewrite Hs, world_wrong_side_before_finish. reflexivity.
  - assert (Hpoi : player_finish_poi
                     (opponent_finish_step (border_step world_crossing))
                   = Some (0, 1)%Z).
    { rewrite world_crossing_before_finish. exact world_crossing_poi. }
    destruct (player_finish_outcome world_crossing (0, 1)%Z Hpoi)
      as (_ & _ & Hcredit).
    destruct (Hcredit ltac:(simpl; lia))
      as (_ & _ & _ & _ & _ & _ & _ & _ & _ & _ & _ & Hfirst).
    apply Hfirst. rewrite world_crossing_before_finish. reflexivity.
Defined.

Lemma world_crossing_motion (now : R) :
  tick_motion no_keys now world_crossing = Ok world_crossing.
Proof.
  apply tick_motion_at_rest; simpl; try reflexivity; try lra; lia.
Qed.

Lemma world_wrong_side_motion (now : R) :
  tick_motion no_keys now world_wrong_side = Ok world_wrong_side.
Proof.
  apply tick_motion_at_rest; simpl; try reflexivity; try lra; lia.
Qed.

(** C7 fails as stated: in a tick in which the player crosses the finish
    line, a computer car that had reached waypoint index 22 is back at
    index 0. *)
Lemma stage_credit_rewinds_waypoints :
  exists w', tick no_keys 0 world_crossing = Ok w' /\
    waypoint_index (opponent world_crossing) = 22%Z /\
    waypoint_index (opponent w') = 0%Z /\
    (waypoint_index (opponent w') < waypoint_index (opponent world_crossing))%Z.
Proof.
  eexists. split.
  { unfold tick. rewrite world_crossing_motion. cbn [bind]. reflexivity. }
  unfold handle_collision. rewrite world_crossing_before_finish.
  rewrite (player_finish_step_credit world_crossing (0, 1)%Z
             world_crossing_poi) by (simpl; lia).
  split; [reflexivity |]. split; [reflexivity |].
  simpl. lia.
Qed.

Lemma waypoint_index_across_tick_witness :
  (exists w', tick no_keys 0 world_wrong_side = Ok w' /\
     (waypoint_index (opponent world_wrong_side)
      <= waypoint_index (opponent w'))%Z) /\
  (exists w', tick no_keys 0 world_crossing = Ok w' /\
     waypoint_index (opponent w') = 0%Z).
Proof.
  split.
  - destruct (waypoint_index_across_tick no_keys 0 world_wrong_side)
      as (w2 & w' & Hbefore & Htick & Hkeep & _); [simpl; lia |].
    exists w'. split; [exact Htick |]. apply Hkeep.
    unfold before_player_finish in Hbefore.
    rewrite world_wrong_side_motion in Hbefore. cbn [bind] in Hbefore.
    rewrite world_wrong_side_before_finish in Hbefore.
    injection Hbefore as <-.
    unfold completes_stage. rewrite world_wrong_side_poi. reflexivity.
  - destruct (waypoint_index_across_tick no_keys 0 world_crossing)
      as (w2 & w' & Hbefore & Htick & _ & Hzero); [simpl; lia |].
    exists w'. split; [exact Htick |]. apply Hzero.
    unfold before_player_finish in Hbefore.
    rewrite world_crossing_motion in Hbefore. cbn [bind] in Hbefore.
    rewrite world_crossing_before_finish in Hbefore.
    injection Hbefore as <-.
    unfold completes_stage. rewrite world_crossing_poi. reflexivity.
Defined.

(** C3 on the code: the computer car reaches the finish line in stage 3 with
    waypoint index 22.  After [handle_collision] the race is at stage 1 and
    not in progress, and the player is as at the start of the program; the
    computer car is at its start position, but its speed is 0 and its
    waypoint index is still 22, where the program started it with speed 2 and
    index 0. *)
Lemma lost_race_stalls_computer_car :
  stage (race_state (handle_collision world_lost)) = 1%Z /\
  in_progress (race_state (handle_collision world_lost)) = false /\
  player (handle_collision world_lost) = player0 /\
  x_pos (car (opponent (handle_collision world_lost))) = 150 /\
  y_pos (car (opponent (handle_collision world_lost))) = 200 /\
  speed (car (opponent (handle_collision world_lost))) = 0 /\
  speed (car opponent0) = 2 /\
  waypoint_index (opponent (handle_collision world_lost)) = 22%Z /\
  waypoint_index opponent0 = 0%Z /\
  opponent (handle_collision world_lost) <> opponent0.
Proof.
  assert (Hw : handle_collision world_lost =
               {| player := player0;
                  opponent := ComputerCar_reset_state (opponent world_lost);
                  race_state := GameInfo_init 1 |}).
  { unfold handle_collision, border_step. eval_collides 300%Z 300%Z.
    change (pixels_overlap _ _ _) with (@None (Z * Z)). cbv iota.
    unfold opponent_finish_step. eval_collides 130%Z 250%Z.
    change (pixels_overlap _ _ _) with (Some (0, 0)%Z). cbv iota.
    unfold player_finish_step, player_finish_poi.
    eval_collides 180%Z 200%Z. reflexivity. }
  rewrite Hw. repeat (split; [reflexivity |]).
  intros Heq. apply (f_equal waypoint_index) in Heq. discriminate Heq.
Qed.

(** * Further properties of the cars *)

Section CarProperties.

Context {pg : Pygame} {assets : Assets}.

(** No call on a player car touches its sprite, its top speed, its turn speed
    or its acceleration. *)
Lemma player_op_frame (op : PlayerOp) (p : AbstractCar) :
  sprite (run_player_op op p) = sprite p /\
  max_speed (run_player_op op p) = max_speed p /\
  turn_speed (run_player_op op p) = turn_speed p /\
  acceleration (run_player_op op p) = acceleration p.
Proof.
  destruct op as [[|] [|] | | | | | |]; simpl; repeat split; reflexivity.
Qed.

Lemma backward_speed_max (c : AbstractCar) :
  speed (backward_speed c)
  = Rmax (speed c - acceleration c) (- max_speed c / 2).
Proof. unfold backward_speed. simpl. apply py_max_Rmax. Qed.

(** X1: [accelerate_backward] leaves the speed at
    [max(speed - acceleration, -max_speed/2)], which is never below
    [-max_speed/2]; it is not above the previous speed when that speed was at
    least [-max_speed/2] and the acceleration is not negative.  On a computer
    car the call runs the overriding [update_motion] and returns when the
    waypoint index is not negative. *)
Theorem accelerate_backward_speed :
  (forall p : AbstractCar,
     speed (PlayerCar_accelerate_backward p) =
       Rmax (speed p - acceleration p) (- max_speed p / 2) /\
     - max_speed p / 2 <= speed (PlayerCar_accelerate_backward p) /\
     (0 <= acceleration p -> - max_speed p / 2 <= speed p ->
      speed (PlayerCar_accelerate_backward p) <= speed p)) /\
  (forall c : ComputerCar,
     (0 <= waypoint_index c)%Z ->
     exists c', ComputerCar_accelerate_backward c = Ok c' /\
       speed (car c') =
         Rmax (speed (car c) - acceleration (car c))
           (- max_speed (car c) / 2) /\
       - max_speed (car c) / 2 <= speed (car c') /\
       (0 <= acceleration (car c) -> - max_speed (car c) / 2 <= speed (car c) ->
        speed (car c') <= speed (car c))).
Proof.
  split.
  - intros p. unfold PlayerCar_accelerate_backward.
    change (speed (AbstractCar_update_motion (backward_speed p)))
      with (speed (backward_speed p)).
    rewrite backward_speed_max.
    unfold Rmax. destruct (Rle_dec _ _); repeat split; intros; lra.
  - intros c Hidx. unfold ComputerCar_accelerate_backward.
    destruct (update_motion_total (with_car backward_speed c) Hidx)
      as [c' Hc'].
    exists c'. split; [exact Hc' |].
    apply update_motion_frame in Hc' as (_ & _ & Hs & _).
    rewrite Hs. cbn [car with_car]. rewrite backward_speed_max.
    unfold Rmax. destruct (Rle_dec _ _); repeat split; intros; lra.
Qed.

(** ** Friction *)

(** X2: with a non-negative acceleration, [apply_friction] never leaves a
    negative speed and never raises a speed that was not negative.  A speed
    of at most [acceleration/2], so every reverse speed, becomes 0 in that
    one call, which then leaves the position as it was; from there on
    [apply_friction] changes nothing. *)
Theorem apply_friction_slows (p : AbstractCar) :
  0 <= acceleration p ->
  0 <= speed (apply_friction p) /\
  (0 <= speed p -> speed (apply_friction p) <= speed p) /\
  (speed p <= acceleration p / 2 ->
   speed (apply_friction p) = 0 /\
   x_pos (apply_friction p) = x_pos p /\
   y_pos (apply_friction p) = y_pos p /\
   apply_friction (apply_friction p) = apply_friction p).
Proof.
  intros Ha.
  assert (Hs : speed (apply_friction p)
               = py_max (speed p - acceleration p / 2) 0) by reflexivity.
  split; [| split].
  - rewrite Hs. unfold py_max. destruct (Rlt_dec _ _); lra.
  - intros Hpos. rewrite Hs. unfold py_max. destruct (Rlt_dec _ _); lra.
  - intros Hslow.
    assert (Hzero : py_max (speed p - acceleration p / 2) 0 = 0).
    { unfold py_max. destruct (Rlt_dec _ _); lra. }
    split; [rewrite Hs; exact Hzero |].
    split; [| split].
    + unfold apply_friction, AbstractCar_update_motion. simpl.
      rewrite Hzero. ring.
    + unfold apply_friction, AbstractCar_update_motion. simpl.
      rewrite Hzero. ring.
    + apply apply_friction_at_rest; [rewrite Hs; exact Hzero | exact Ha].
Qed.

(** ** Moving *)

(** X4: [update_motion] changes neither speed nor heading.  A car with speed
    0 is left where it is, whatever its heading; a car with heading 0 keeps
    its [x] and has its [y] lowered by its speed: heading 0 is straight up
    the screen. *)
Theorem update_motion_rest_and_up (p : AbstractCar) :
  speed (AbstractCar_update_motion p) = speed p /\
  heading (AbstractCar_update_motion p) = heading p /\
  (speed p = 0 -> AbstractCar_update_motion p = p) /\
  (heading p = 0 ->
   x_pos (AbstractCar_update_motion p) = x_pos p /\
   y_pos (AbstractCar_update_motion p) = y_pos p - speed p).
Proof.
  split; [reflexivity |]. split; [reflexivity |]. split.
  - intros Hs. destruct p as [im m v t h x y a]. simpl in Hs. subst v.
    unfold AbstractCar_update_motion, set_pos. simpl. f_equal; ring.
  - intros Hh. unfold AbstractCar_update_motion. simpl.
    rewrite Hh. unfold radians. rewrite Rmult_0_l, sin_0, cos_0.
    split; ring.
Qed.

(** ** Sequences of calls on the player *)

Lemma run_player_ops_frame (ops : list PlayerOp) (p : AbstractCar) :
  sprite (run_player_ops ops p) = sprite p /\
  max_speed (run_player_ops ops p) = max_speed p /\
  turn_speed (run_player_ops ops p) = turn_speed p /\
  acceleration (run_player_ops ops p) = acceleration p.
Proof.
  revert p. induction ops as [| op ops IH]; intros p; [simpl; tauto |].
  unfold run_player_ops in *. simpl.
  destruct (IH (run_player_op op p)) as (Hs & Hm & Ht & Ha).
  destruct (player_op_frame op p) as (Hs' & Hm' & Ht' & Ha').
  rewrite Hs, Hm, Ht, Ha. tauto.
Qed.

(** X5: whatever was called on a player car since its constructor,
    [reset_state] gives back the car the constructor built: start position,
    heading 0, speed 0 and the parameters it was built with. *)
Theorem player_reset_restores_init
    (max turn : R) (ops : list PlayerOp) :
  PlayerCar_reset_state (run_player_ops ops (PlayerCar_init max turn))
  = PlayerCar_init max turn.
Proof.
  destruct (run_player_ops_frame ops (PlayerCar_init max turn))
    as (Hs & Hm & Ht & Ha).
  destruct (run_player_ops ops (PlayerCar_init max turn))
    as [im m v t h x y a].
  simpl in Hs, Hm, Ht, Ha. subst.
  reflexivity.
Qed.

(** ** The input handler *)


Lemma player_op_keeps (m : R) (op : PlayerOp) (q : AbstractCar) :
  keeps_bounds op = true ->
  0 <= acceleration q /\ max_speed q = m /\ speed_in_bounds q ->
  0 <= acceleration (run_player_op op q) /\
  max_speed (run_player_op op q) = m /\
  speed_in_bounds (run_player_op op q).
Proof.
  intros Hop (Ha & Hm & Hb).
  destruct (player_op_frame op q) as (_ & Hm' & _ & Ha').
  rewrite Ha', Hm'.
  split; [exact Ha |]. split; [exact Hm |]. now apply player_op_bounds.
Qed.

(** X7: with a non-negative acceleration, [move_player] keeps the speed in
    [[-max_speed/2, max_speed]] whatever keys are held, and never changes the
    top speed. *)
Theorem move_player_bounds (keys : Keys) (p : AbstractCar) :
  0 <= acceleration p ->
  speed_in_bounds p ->
  speed_in_bounds (move_player keys p) /\
  max_speed (move_player keys p) = max_speed p.
Proof.
  intros Ha Hb.
  assert (H0 : 0 <= acceleration p /\ max_speed p = max_speed p /\
               speed_in_bounds p) by tauto.
  enough (H : 0 <= acceleration (move_player keys p) /\
              max_speed (move_player keys p) = max_speed p /\
              speed_in_bounds (move_player keys p)) by tauto.
  unfold move_player.
  destruct keys as [[|] [|] [|] [|]]; cbn [K_a K_d K_w K_s orb negb];
    repeat first
      [ exact H0
      | apply (player_op_keeps (max_speed p) PApplyFriction); [reflexivity |]
      | apply (player_op_keeps (max_speed p) PAccelerateBackward);
        [reflexivity |]
      | apply (player_op_keeps (max_speed p) PAccelerateForward);
        [reflexivity |]
      | apply (player_op_keeps (max_speed p) (PRotate false true));
        [reflexivity |]
      | apply (player_op_keeps (max_speed p) (PRotate true false));
        [reflexivity |] ].
Qed.

End CarProperties.

(** * Further properties of the steering *)

Section SteeringProperties.

Context {pg : Pygame} {assets : Assets}.

Lemma steer_angle_delta (turn h d : R) :
  steer turn h d =
  if Rlt_dec 0 (angle_delta h d)
  then h - py_min turn (Rabs (angle_delta h d))
  else h + py_min turn (Rabs (angle_delta h d)).
Proof. reflexivity. Qed.

Lemma steer_direction (turn h d : R) :
  0 <= turn ->
  (0 < angle_delta h d -> steer turn h d <= h) /\
  (angle_delta h d <= 0 -> h <= steer turn h d) /\
  (angle_delta h d = 0 -> steer turn h d = h).
Proof.
  intros Hturn. rewrite steer_angle_delta.
  assert (Hm : 0 <= py_min turn (Rabs (angle_delta h d))).
  { unfold py_min. pose proof (Rabs_pos (angle_delta h d)).
    destruct (Rlt_dec _ _); lra. }
  split; [| split].
  - intros Hpos. destruct (Rlt_dec 0 (angle_delta h d)); lra.
  - intros Hneg. destruct (Rlt_dec 0 (angle_delta h d)); lra.
  - intros Hz. rewrite Hz, Rabs_R0.
    destruct (Rlt_dec 0 0) as [Habs | _]; [lra |].
    unfold py_min. destruct (Rlt_dec 0 turn); lra.
Qed.

(** X8: with a non-negative turn speed, one [compute_angle] call changes
    nothing of the car but its heading, and never turns it the wrong way:
    with [delta] the difference to the desired heading as the code wraps it,
    the heading does not go up when [delta > 0], does not go down when
    [delta <= 0], and stays as it is when [delta = 0]. *)
Theorem compute_angle_turns_toward (c c' : ComputerCar) (target : Z * Z)
    (a : R) :
  0 <= turn_speed (car c) ->
  py_index (waypoints c) (waypoint_index c) = Ok target ->
  desired_angle_rad (x_pos (car c)) (y_pos (car c)) target = Ok a ->
  compute_angle c = Ok c' ->
  (0 < angle_delta (heading (car c)) (degrees a) ->
   heading (car c') <= heading (car c)) /\
  (angle_delta (heading (car c)) (degrees a) <= 0 ->
   heading (car c) <= heading (car c')) /\
  (angle_delta (heading (car c)) (degrees a) = 0 ->
   heading (car c') = heading (car c)) /\
  x_pos (car c') = x_pos (car c) /\ y_pos (car c') = y_pos (car c) /\
  speed (car c') = speed (car c) /\
  waypoints c' = waypoints c /\
  waypoint_index c' = waypoint_index c.
Proof.
  intros Hturn Ht Ha Hrun.
  unfold compute_angle in Hrun. rewrite Ht in Hrun. cbn [bind] in Hrun.
  rewrite Ha in Hrun. cbn [bind] in Hrun. injection Hrun as <-.
  cbn [car with_car heading set_heading x_pos y_pos speed waypoint_index
       waypoints].
  destruct (steer_direction (turn_speed (car c)) (heading (car c))
              (degrees a) Hturn) as (Hdown & Hup & Hstay).
  split; [exact Hdown |]. split; [exact Hup |]. split; [exact Hstay |].
  repeat split; reflexivity.
Qed.

(** ** Where the desired heading points *)

Lemma atan_sign (q : R) :
  - PI / 2 <= atan q <= PI / 2 /\
  (0 <= q -> 0 <= atan q) /\
  (q <= 0 -> atan q <= 0).
Proof.
  destruct (atan_bound q) as [Hlo Hhi].
  split; [lra |]. split; intros Hq.
  - destruct (Req_dec_T q 0) as [-> | Hne]; [rewrite atan_0; lra |].
    pose proof (atan_increasing 0 q) as Hinc. rewrite atan_0 in Hinc. lra.
  - destruct (Req_dec_T q 0) as [-> | Hne]; [rewrite atan_0; lra |].
    pose proof (atan_increasing q 0) as Hinc. rewrite atan_0 in Hinc. lra.
Qed.

Lemma degrees_le (r1 r2 : R) : r1 <= r2 -> degrees r1 <= degrees r2.
Proof.
  intros H. unfold degrees. apply Rmult_le_compat_r; [| exact H].
  pose proof PI_RGT_0. apply Rlt_le, Rdiv_lt_0_compat; lra.
Qed.

Lemma degrees_marks :
  degrees (- PI / 2) = -90 /\ degrees 0 = 0 /\ degrees (PI / 2) = 90 /\
  degrees PI = 180 /\ degrees (3 * PI / 2) = 270.
Proof.
  pose proof PI_RGT_0. unfold degrees. repeat split; field; lra.
Qed.

Lemma quotient_sign (dx dy : R) :
  (dy < 0 -> 0 <= dx -> dx / dy <= 0) /\
  (dy < 0 -> dx <= 0 -> 0 <= dx / dy) /\
  (0 < dy -> 0 <= dx -> 0 <= dx / dy) /\
  (0 < dy -> dx <= 0 -> dx / dy <= 0).
Proof.
  unfold Rdiv. repeat split; intros Hy Hx.
  - assert (/ dy < 0) by now apply Rinv_lt_0_compat. nra.
  - assert (/ dy < 0) by now apply Rinv_lt_0_compat. nra.
  - assert (0 < / dy) by now apply Rinv_0_lt_compat. nra.
  - assert (0 < / dy) by now apply Rinv_0_lt_compat. nra.
Qed.

(** X9: the heading [compute_angle] steers for is between -90 and 270
    degrees and lies in the quarter turn that faces the waypoint: between
    -90 and 0 for a waypoint above and not to the left, between 0 and 90 for
    one above and not to the right, between 180 and 270 for one below and
    not to the left, between 90 and 180 for one below and not to the right.
    For a waypoint level with the car it is 90 whichever side the waypoint
    is on. *)
Theorem desired_angle_quadrant (x y : R) (target : Z * Z) (a : R) :
  desired_angle_rad x y target = Ok a ->
  -90 <= degrees a <= 270 /\
  (IZR (snd target) - y = 0 -> degrees a = 90) /\
  (IZR (snd target) - y < 0 -> 0 <= IZR (fst target) - x ->
   -90 <= degrees a <= 0) /\
  (IZR (snd target) - y < 0 -> IZR (fst target) - x <= 0 ->
   0 <= degrees a <= 90) /\
  (0 < IZR (snd target) - y -> 0 <= IZR (fst target) - x ->
   180 <= degrees a <= 270) /\
  (0 < IZR (snd target) - y -> IZR (fst target) - x <= 0 ->
   90 <= degrees a <= 180).
Proof.
  intros Hd.
  pose proof PI_RGT_0 as Hpi.
  destruct degrees_marks as (Hm90 & H0 & H90 & H180 & H270).
  unfold desired_angle_rad, py_div in Hd.
  set (dx := IZR (fst target) - x) in *.
  set (dy := IZR (snd target) - y) in *.
  destruct (quotient_sign dx dy) as (Q1 & Q2 & Q3 & Q4).
  destruct (atan_sign (dx / dy)) as ([Hlo Hhi] & Hpos & Hneg).
  assert (Hbetween : forall lo hi : R,
             lo <= a <= hi -> degrees lo <= degrees a <= degrees hi).
  { intros lo hi [H1 H2]. split; apply degrees_le; assumption. }
  destruct (Req_dec_T dy 0) as [Hz | Hnz]; cbn [bind] in Hd.
  - destruct (Rlt_dec y (IZR (snd target))) as [Hlt | _];
      [subst dy; lra |].
    injection Hd as <-. rewrite H90.
    repeat split; intros; lra.
  - destruct (Rlt_dec y (IZR (snd target))) as [Hbelow | Habove];
      injection Hd as <-.
    + assert (Hdy : 0 < dy) by (subst dy; lra).
      split; [| split; [intros; lra |]].
      { rewrite <- Hm90, <- H270. apply Hbetween. lra. }
      split; [intros; lra |]. split; [intros; lra |]. split.
      * intros _ Hx. rewrite <- H180, <- H270. apply Hbetween.
        specialize (Hpos (Q3 Hdy Hx)). lra.
      * intros _ Hx. rewrite <- H90, <- H180. apply Hbetween.
        specialize (Hneg (Q4 Hdy Hx)). lra.
    + assert (Hdy : dy < 0) by (subst dy; lra).
      split; [| split; [intros; lra |]].
      { rewrite <- Hm90, <- H270. apply Hbetween. lra. }
      split; [| split; [| split; intros; lra]].
      * intros _ Hx. rewrite <- Hm90, <- H0. apply Hbetween.
        specialize (Hneg (Q1 Hdy Hx)). lra.
      * intros _ Hx. rewrite <- H0, <- H90. apply Hbetween.
        specialize (Hpos (Q2 Hdy Hx)). lra.
Qed.

End SteeringProperties.

(** * Further properties of the race state *)

Lemma Int_part_bounds (x : R) : IZR (Int_part x) <= x < IZR (Int_part x) + 1.
Proof. destruct (base_Int_part x). lra. Qed.

Lemma py_round_near (x : R) : Rabs (IZR (py_round x) - x) <= 1 / 2.
Proof.
  unfold py_round. destruct (Int_part_bounds x) as [Hlo Hhi].
  destruct (Rlt_dec (x - IZR (Int_part x)) (1 / 2)) as [Hd | Hd];
    [| destruct (Rlt_dec (1 / 2) (x - IZR (Int_part x)));
       [| destruct (Z.even (Int_part x))]];
    try rewrite plus_IZR;
    unfold Rabs; destruct (Rcase_abs _); lra.
Qed.

Lemma py_round_IZR (z : Z) : py_round (IZR z) = z.
Proof.
  unfold py_round.
  assert (Hz : Int_part (IZR z) = z).
  { symmetry. apply Int_part_spec. lra. }
  rewrite Hz.
  destruct (Rlt_dec (IZR z - IZR z) (1 / 2)); [reflexivity | lra].
Qed.

Lemma py_round_nonneg (x : R) : 0 <= x -> (0 <= py_round x)%Z.
Proof.
  intros Hx. destruct (Int_part_bounds x) as [_ Hhi].
  assert (Hf : (0 <= Int_part x)%Z).
  { apply Z.lt_succ_r. apply lt_IZR. rewrite succ_IZR. lra. }
  unfold py_round.
  destruct (Rlt_dec _ _); [exact Hf |].
  destruct (Rlt_dec _ _); [lia |].
  destruct (Z.even _); lia.
Qed.

Section RaceProperties.

Context {pg : Pygame} {assets : Assets}.

Lemma iter_advance_level (n : nat) (g : GameInfo) :
  stage (Nat.iter n GameInfo_advance_level g) = (stage g + Z.of_nat n)%Z.
Proof.
  induction n as [| n IH]; [simpl; lia |].
  change (Nat.iter (S n) GameInfo_advance_level g)
    with (GameInfo_advance_level (Nat.iter n GameInfo_advance_level g)).
  cbn [GameInfo_advance_level stage]. rewrite IH. lia.
Qed.

(** X11: [n] calls of [advance_level] add [n] to the stage; a race state
    fresh from its constructor is finished after ten of them and after no
    fewer; [reset_state] then gives back the constructor's state. *)
Theorem levels_to_finish (n : nat) (g : GameInfo) :
  stage (Nat.iter n GameInfo_advance_level g) = (stage g + Z.of_nat n)%Z /\
  (is_game_finished (Nat.iter n GameInfo_advance_level (GameInfo_init 1))
   = true <-> (10 <= n)%nat) /\
  GameInfo_reset_state (Nat.iter n GameInfo_advance_level g)
  = GameInfo_init 1.
Proof.
  split; [apply iter_advance_level |]. split; [| reflexivity].
  unfold is_game_finished, LEVELS. rewrite iter_advance_level. simpl stage.
  rewrite Z.ltb_lt. lia.
Qed.

(** X12: [get_stage_time] is 0 while the race is not in progress, so right
    after [advance_level] and [reset_state]; in progress it is within half a
    second of the time elapsed since [start_stage], not negative when the
    clock has not gone back, and exactly [k] a whole number [k] of seconds
    after [start_stage]. *)
Theorem get_stage_time_elapsed (now : R) (g : GameInfo) :
  (in_progress g = false -> get_stage_time now g = 0%Z) /\
  get_stage_time now (GameInfo_advance_level g) = 0%Z /\
  get_stage_time now (GameInfo_reset_state g) = 0%Z /\
  (in_progress g = true ->
   Rabs (IZR (get_stage_time now g) - (now - stage_start_time g)) <= 1 / 2 /\
   (stage_start_time g <= now -> (0 <= get_stage_time now g)%Z)) /\
  (forall k : Z, get_stage_time (now + IZR k) (start_stage now g) = k).
Proof.
  unfold get_stage_time.
  split; [intros ->; reflexivity |].
  split; [reflexivity |]. split; [reflexivity |]. split.
  - intros ->. cbn [negb]. split; [apply py_round_near |].
    intros Hle. apply py_round_nonneg. lra.
  - intros k. cbn [start_stage in_progress stage_start_time negb].
    replace (now + IZR k - now) with (IZR k) by ring.
    apply py_round_IZR.
Qed.

End RaceProperties.

(** * Further properties of the handler and the loop *)

Section LoopProperties.

Context {pg : Pygame} {assets : Assets}.

Lemma bounce_at_rest (p : AbstractCar) : speed p = 0 -> bounce p = p.
Proof.
  intros Hs. destruct p as [im m v t h x y a]. simpl in Hs. subst v.
  unfold bounce, AbstractCar_update_motion, set_speed, set_pos. simpl.
  f_equal; ring.
Qed.

Ltac within_arith :=
  unfold speed_within, forward_speed, backward_speed in *; simpl in *;
  unfold py_min, py_max in *;
  repeat match goal with
         | |- context [Rlt_dec ?a ?b] => destruct (Rlt_dec a b)
         end;
  unfold Rabs in *;
  repeat match goal with
         | H : context [Rcase_abs ?e] |- _ => destruct (Rcase_abs e)
         | |- context [Rcase_abs ?e] => destruct (Rcase_abs e)
         end;
  simpl in *; try lra.

Lemma player_op_speed_within (op : PlayerOp) (p : AbstractCar) :
  speed_within p ->
  speed_within (run_player_op op p) /\
  max_speed (run_player_op op p) = max_speed p.
Proof.
  intros Hw. split; [| apply player_op_frame].
  destruct op as [[|] [|] | | | | | |];
    unfold run_player_op, PlayerCar_accelerate_forward,
      PlayerCar_accelerate_backward, apply_friction, bounce,
      PlayerCar_reset_state, AbstractCar_reset_state, rotate;
    within_arith.
Qed.

Lemma move_player_speed_within (keys : Keys) (p : AbstractCar) :
  speed_within p ->
  speed_within (move_player keys p) /\
  max_speed (move_player keys p) = max_speed p.
Proof.
  intros Hw.
  assert (Hstep : forall (op : PlayerOp) (q : AbstractCar),
             speed_within q /\ max_speed q = max_speed p ->
             speed_within (run_player_op op q) /\
             max_speed (run_player_op op q) = max_speed p).
  { intros op q [Hq Hm].
    destruct (player_op_speed_within op q Hq) as [Hq' Hm'].
    split; [exact Hq' | congruence]. }
  assert (H0 : speed_within p /\ max_speed p = max_speed p) by tauto.
  unfold move_player.
  destruct keys as [[|] [|] [|] [|]]; cbn [K_a K_d K_w K_s orb negb];
    repeat first
      [ exact H0
      | apply (Hstep PApplyFriction)
      | apply (Hstep PAccelerateBackward)
      | apply (Hstep PAccelerateForward)
      | apply (Hstep (PRotate false true))
      | apply (Hstep (PRotate true false)) ].
Qed.

Lemma update_motion_index_within (c c' : ComputerCar) :
  index_within c ->
  ComputerCar_update_motion c = Ok c' ->
  index_within c' /\ waypoints c' = waypoints c.
Proof.
  unfold index_within. intros Hidx Hrun.
  pose proof (update_motion_frame c c' Hrun) as (Hw & Hi & _).
  split; [| exact Hw]. rewrite Hw.
  unfold ComputerCar_update_motion in Hrun.
  destruct (Z.of_nat (length (waypoints c)) <=? waypoint_index c)%Z eqn:Hg.
  - injection Hrun as <-. exact Hidx.
  - apply Z.leb_gt in Hg. lia.
Qed.

(** ** The race state through the handler *)

Lemma handle_collision_race_cases (w : World) :
  race_state (handle_collision w) = race_state w \/
  in_progress (race_state (handle_collision w)) = false /\
  (race_state (handle_collision w) = GameInfo_init 1 \/
   race_state (handle_collision w) = GameInfo_advance_level (race_state w) \/
   race_state (handle_collision w)
   = GameInfo_advance_level (GameInfo_init 1)).
Proof.
  unfold handle_collision.
  assert (Hb : race_state (border_step w) = race_state w)
    by apply border_step_opponent.
  revert Hb. generalize (border_step w). intros w1 Hb.
  unfold opponent_finish_step.
  destruct (collides_with (car (opponent w1)) _ _ _) as [poi |];
    unfold player_finish_step;
    match goal with
    | |- context [player_finish_poi ?v] =>
        destruct (player_finish_poi v) as [poi' |];
        [destruct (snd poi' =? 0)%Z |]
    end;
    cbn [race_state GameInfo_reset_state]; rewrite ?Hb; auto.
Qed.

(** X13: [handle_collision] either leaves the race state as it is or leaves
    the race not in progress, and then the race state is the constructor's
    (the computer car won), the old one advanced by one level (the player
    crossed the line), or the constructor's advanced by one level (both in
    the same call).  So the stage after the call is the old one, the old one
    plus 1, 1 or 2. *)
Theorem handle_collision_race_state (w : World) :
  (race_state (handle_collision w) = race_state w \/
   in_progress (race_state (handle_collision w)) = false /\
   (race_state (handle_collision w) = GameInfo_init 1 \/
    race_state (handle_collision w) = GameInfo_advance_level (race_state w) \/
    race_state (handle_collision w)
    = GameInfo_advance_level (GameInfo_init 1))) /\
  (stage (race_state (handle_collision w)) = stage (race_state w) \/
   stage (race_state (handle_collision w)) = (stage (race_state w) + 1)%Z \/
   stage (race_state (handle_collision w)) = 1%Z \/
   stage (race_state (handle_collision w)) = 2%Z).
Proof.
  pose proof (handle_collision_race_cases w) as Hc.
  split; [exact Hc |].
  destruct Hc as [-> | [_ [-> | [-> | ->]]]]; simpl; auto.
Qed.

(** ** The cars through the handler *)

Lemma cars_within_bounce (w0 w : World) (g : GameInfo) :
  cars_within w0 w ->
  cars_within w0
    {| player := bounce (player w); opponent := opponent w;
       race_state := g |}.
Proof.
  unfold cars_within. intros (Hi & Hs & Hw & Hm).
  destruct (player_op_speed_within PBounce (player w) Hs) as [Hs' Hm'].
  cbn [player opponent].
  split; [exact Hi |]. split; [exact Hs' |].
  split; [exact Hw | rewrite <- Hm; exact Hm'].
Qed.

Lemma cars_within_reset (w0 w : World) (g : GameInfo) :
  cars_within w0 w ->
  cars_within w0
    {| player := PlayerCar_reset_state (player w);
       opponent := ComputerCar_reset_state (opponent w);
       race_state := g |}.
Proof.
  unfold cars_within. intros (Hi & Hs & Hw & Hm).
  destruct (player_op_speed_within PResetState (player w) Hs) as [Hs' Hm'].
  cbn [player opponent].
  split; [exact Hi |]. split; [exact Hs' |].
  split; [exact Hw | rewrite <- Hm; exact Hm'].
Qed.

Lemma cars_within_credit (w0 w : World) (g : GameInfo) (st : Z) :
  cars_within w0 w ->
  cars_within w0
    {| player := PlayerCar_reset_state (player w);
       opponent := ComputerCar_advance_level st (opponent w);
       race_state := g |}.
Proof.
  unfold cars_within, index_within. intros (Hi & Hs & Hw & Hm).
  destruct (player_op_speed_within PResetState (player w) Hs) as [Hs' Hm'].
  cbn [player opponent].
  split; [simpl; lia |]. split; [exact Hs' |].
  split; [exact Hw | rewrite <- Hm; exact Hm'].
Qed.

Lemma handle_collision_cars_within (w0 w : World) :
  cars_within w0 w -> cars_within w0 (handle_collision w).
Proof.
  intros H. unfold handle_collision.
  assert (H1 : cars_within w0 (border_step w)).
  { unfold border_step. destruct collides_with;
      [apply cars_within_bounce |]; exact H. }
  assert (H2 : cars_within w0 (opponent_finish_step (border_step w))).
  { unfold opponent_finish_step. destruct collides_with;
      [apply cars_within_reset |]; exact H1. }
  unfold player_finish_step.
  destruct player_finish_poi as [poi |]; [| exact H2].
  destruct (snd poi =? 0)%Z;
    [apply cars_within_bounce | apply cars_within_credit]; exact H2.
Qed.

Lemma game_finished_step_cars_within (w0 w : World) :
  cars_within w0 w -> cars_within w0 (game_finished_step w).
Proof.
  intros H. unfold game_finished_step.
  destruct is_game_finished; [apply cars_within_reset |]; exact H.
Qed.

Lemma game_finished_step_stage (w : World) :
  (1 <= stage (race_state w) <= LEVELS + 1)%Z ->
  (1 <= stage (race_state (game_finished_step w)) <= LEVELS)%Z.
Proof.
  unfold game_finished_step, is_game_finished, LEVELS. intros H.
  destruct (10 <? stage (race_state w))%Z eqn:Hf; simpl; [lia |].
  apply Z.ltb_ge in Hf. lia.
Qed.

Lemma tick_keeps_world_ok (keys : Keys) (now : R) (w : World) :
  world_ok w ->
  exists w', tick keys now w = Ok w' /\ world_ok w' /\
    waypoints (opponent w') = waypoints (opponent w) /\
    max_speed (player w') = max_speed (player w).
Proof.
  intros (Hst & Hi & Hs).
  destruct (tick_motion_total keys now w) as (w1 & Hw1 & _);
    [unfold index_within in Hi; lia |].
  unfold tick. rewrite Hw1. cbn [bind].
  exists (game_finished_step (handle_collision w1)).
  split; [reflexivity |].
  assert (Hwait : opponent (wait_for_start now w) = opponent w /\
                  player (wait_for_start now w) = player w /\
                  stage (race_state (wait_for_start now w))
                  = stage (race_state w)).
  { unfold wait_for_start. destruct in_progress; repeat split. }
  destruct Hwait as (Ho & Hp & Hg).
  unfold tick_motion in Hw1. rewrite Ho, Hp in Hw1.
  bind_inv Hw1. injection Hw1 as <-.
  destruct (update_motion_index_within _ _ Hi Ha) as [Hi' Hwp].
  destruct (move_player_speed_within keys (player w) Hs) as [Hs' Hm'].
  set (w1 := {| player := move_player keys (player w); opponent := a;
                race_state := race_state (wait_for_start now w) |}).
  assert (H1 : cars_within w w1).
  { unfold cars_within. subst w1. simpl. tauto. }
  pose proof (game_finished_step_cars_within w _
                (handle_collision_cars_within w w1 H1))
    as (Hi2 & Hs2 & Hw2 & Hm2).
  assert (Hst1 : (1 <= stage (race_state (handle_collision w1))
                  <= LEVELS + 1)%Z).
  { destruct (handle_collision_race_cases w1) as [-> | [_ [-> | [-> | ->]]]];
      subst w1; simpl; unfold LEVELS in *; lia. }
  split; [| tauto].
  unfold world_ok. split; [apply game_finished_step_stage, Hst1 | tauto].
Qed.

(** X15: from a world with the stage within 1..10, the waypoint index within
    the list and the player's speed within its top speed either way (the
    world the program starts in is one), the loop runs any number of
    iterations on any inputs without raising, and the world it reaches is
    such a world again, with the waypoint list and the player's top speed it
    started with.  In particular stage 11 is never seen between two
    iterations. *)
Theorem run_ticks_invariant (inputs : list (Keys * R)) (w : World) :
  world_ok w ->
  exists w', run_ticks inputs w = Ok w' /\ world_ok w' /\
    waypoints (opponent w') = waypoints (opponent w) /\
    max_speed (player w') = max_speed (player w).
Proof.
  revert w. induction inputs as [| [keys now] rest IH]; intros w Hok.
  - exists w. simpl. tauto.
  - destruct (tick_keeps_world_ok keys now w Hok)
      as (w1 & Ht & Hok1 & Hw1 & Hm1).
    destruct (IH w1 Hok1) as (w' & Hr & Hok' & Hw' & Hm').
    exists w'. simpl. rewrite Ht. cbn [bind].
    split; [exact Hr |]. split; [exact Hok' |]. split; congruence.
Qed.

(** ** The waiting screen *)

Lemma parked_bounce (w : World) (g : GameInfo) :
  parked w ->
  parked {| player := bounce (player w); opponent := opponent w;
            race_state := g |}.
Proof.
  unfold parked. intros (Hx & Hy & Hh & Hs & Ho).
  cbn [player opponent]. rewrite (bounce_at_rest _ Hs). tauto.
Qed.

Lemma parked_reset (w : World) (g : GameInfo) :
  parked {| player := PlayerCar_reset_state (player w);
            opponent := ComputerCar_reset_state (opponent w);
            race_state := g |}.
Proof. unfold parked, at_start. simpl. repeat split; reflexivity. Qed.

Lemma parked_credit (w : World) (g : GameInfo) (st : Z) :
  parked {| player := PlayerCar_reset_state (player w);
            opponent := ComputerCar_advance_level st (opponent w);
            race_state := g |}.
Proof. unfold parked, at_start. simpl. repeat split; reflexivity. Qed.

Lemma handle_collision_running_or_parked (w : World) :
  in_progress (race_state w) = true ->
  in_progress (race_state (handle_collision w)) = true \/
  parked (handle_collision w).
Proof.
  intros Hrun. unfold handle_collision.
  assert (H1 : in_progress (race_state (border_step w)) = true).
  { now rewrite (proj2 (border_step_opponent w)). }
  revert H1. generalize (border_step w). intros w1 H1.
  assert (H2 : in_progress (race_state (opponent_finish_step w1)) = true \/
               parked (opponent_finish_step w1)).
  { unfold opponent_finish_step. destruct collides_with;
      [right; apply parked_reset | now left]. }
  revert H2. generalize (opponent_finish_step w1). intros w2 H2.
  unfold player_finish_step.
  destruct player_finish_poi as [poi |]; [| exact H2].
  destruct (snd poi =? 0)%Z; [| right; apply parked_credit].
  destruct H2 as [H2 | H2]; [now left | right; now apply parked_bounce].
Qed.

(** X14: when an iteration of the loop ends with the race not in progress,
    so that the next one opens on the waiting screen, both cars are at their
    start positions with heading 0 and the player is at rest. *)
Theorem tick_paused_cars_at_start (keys : Keys) (now : R) (w w' : World) :
  tick keys now w = Ok w' ->
  in_progress (race_state w') = false ->
  parked w'.
Proof.
  intros Htick Hpaused. unfold tick in Htick. bind_inv Htick.
  injection Htick as <-.
  assert (Hrun : in_progress (race_state a) = true).
  { unfold tick_motion in Ha. bind_inv Ha. injection Ha as <-.
    cbn [race_state]. unfold wait_for_start.
    destruct (in_progress (race_state w)) eqn:E; [exact E | reflexivity]. }
  unfold game_finished_step in *.
  destruct (is_game_finished (race_state (handle_collision a)));
    [apply parked_reset |].
  destruct (handle_collision_running_or_parked a Hrun) as [H | H];
    [congruence | exact H].
Qed.

(** ** The computer car over its life *)

Lemma update_motion_turn_speed (c c' : ComputerCar) :
  ComputerCar_update_motion c = Ok c' ->
  turn_speed (car c') = turn_speed (car c).
Proof.
  unfold ComputerCar_update_motion. intros H.
  destruct (Z.of_nat (length (waypoints c)) <=? waypoint_index c)%Z.
  - now injection H as <-.
  - bind_inv H. bind_inv H. injection H as <-.
    apply advance_waypoint_frame in Ha0 as (_ & Hc & _).
    unfold compute_angle in Ha. bind_inv Ha. bind_inv Ha.
    injection Ha as <-. cbn [car with_car]. rewrite Hc. reflexivity.
Qed.

Lemma computer_op_keeps (op : ComputerOp) (c c' : ComputerCar) :
  index_within c ->
  run_computer_op op c = Ok c' ->
  index_within c' /\ waypoints c' = waypoints c /\
  max_speed (car c') = max_speed (car c) /\
  turn_speed (car c') = turn_speed (car c) /\
  acceleration (car c') = acceleration (car c).
Proof.
  intros Hi Hrun.
  destruct op as [[|] [|] | | | | | st]; simpl in Hrun;
    unfold ComputerCar_accelerate_forward, ComputerCar_accelerate_backward
      in Hrun;
    try (injection Hrun as <-; unfold index_within in *; simpl;
         repeat split; try reflexivity; lia);
    match type of Hrun with
    | ComputerCar_update_motion ?x = _ =>
        destruct (update_motion_index_within x c' Hi Hrun) as [Hi' Hw];
        pose proof (update_motion_turn_speed x c' Hrun) as Ht;
        apply update_motion_frame in Hrun as (_ & _ & _ & Hm & Ha)
    end;
    (split; [exact Hi' |]); (split; [exact Hw |]);
    (split; [exact Hm |]); (split; [exact Ht | exact Ha]).
Qed.

(** X16: whatever is called on a computer car since its constructor, it
    keeps the waypoint list, top speed and turn speed it was built with and
    the acceleration 0.1, and its waypoint index stays between 0 and the
    length of the list. *)
Theorem computer_car_keeps_parameters
    (max turn : R) (wps : list (Z * Z)) (c : ComputerCar) :
  computer_reachable (ComputerCar_init max turn wps) c ->
  index_within c /\ waypoints c = wps /\
  max_speed (car c) = max /\ turn_speed (car c) = turn /\
  acceleration (car c) = 0.1.
Proof.
  intros Hreach. induction Hreach as [| c c' op _ IH Hrun].
  - unfold index_within. simpl. repeat split; try reflexivity; lia.
  - destruct IH as (Hi & Hw & Hm & Ht & Ha).
    destruct (computer_op_keeps op c c' Hi Hrun)
      as (Hi' & Hw' & Hm' & Ht' & Ha').
    repeat split; try congruence; apply Hi'.
Qed.

Lemma update_motion_stalled (c c' : ComputerCar) :
  speed (car c) = 0 ->
  ComputerCar_update_motion c = Ok c' ->
  x_pos (car c') = x_pos (car c) /\ y_pos (car c') = y_pos (car c) /\
  speed (car c') = 0.
Proof.
  intros Hs Hrun.
  pose proof (update_motion_frame c c' Hrun) as (_ & _ & Hs' & _).
  unfold ComputerCar_update_motion in Hrun.
  destruct (Z.of_nat (length (waypoints c)) <=? waypoint_index c)%Z.
  - injection Hrun as <-. tauto.
  - bind_inv Hrun. bind_inv Hrun. injection Hrun as <-.
    apply compute_angle_frame in Ha as (_ & _ & Hsa & _ & _ & Hx & Hy).
    apply advance_waypoint_frame in Ha0 as (_ & Hc & _).
    cbn [car with_car] in *. rewrite Hc in *.
    unfold AbstractCar_update_motion. simpl.
    rewrite Hsa, Hs, Hx, Hy. repeat split; ring.
Qed.

(** X17: with speed 0 the computer car's [update_motion] may turn it but
    does not move it.  After the computer car has won, [handle_collision]'s
    reset leaves it with speed 0 at its start position, and a computer car
    with speed 0 at its start position is still so after every iteration of
    the loop in which the player does not complete a stage. *)
Theorem computer_car_stays_parked :
  (forall c c' : ComputerCar,
     speed (car c) = 0 ->
     ComputerCar_update_motion c = Ok c' ->
     x_pos (car c') = x_pos (car c) /\ y_pos (car c') = y_pos (car c) /\
     speed (car c') = 0) /\
  (forall (w : World) (poi : Z * Z),
     collides_with (car (opponent w)) FINISH_LINE_MASK
       (fst FINISH_POS) (snd FINISH_POS) = Some poi ->
     speed (car (opponent (opponent_finish_step w))) = 0 /\
     at_start (opponent (opponent_finish_step w))) /\
  (forall (keys : Keys) (now : R) (w : World),
     (0 <= waypoint_index (opponent w))%Z ->
     speed (car (opponent w)) = 0 ->
     at_start (opponent w) ->
     exists w2 w',
       before_player_finish keys now w = Ok w2 /\
       tick keys now w = Ok w' /\
       (completes_stage w2 = false ->
        speed (car (opponent w')) = 0 /\ at_start (opponent w'))).
Proof.
  split; [exact update_motion_stalled |]. split.
  - intros w poi Hpoi.
    destruct (opponent_finish_step_reset w poi Hpoi)
      as (_ & _ & Hx & Hy & _ & Hs & _).
    unfold at_start. tauto.
  - intros keys now w Hidx Hs [Hx Hy].
    destruct (tick_motion_total keys now w Hidx) as (w1 & Hw1 & _).
    exists (opponent_finish_step (border_step w1)).
    exists (game_finished_step (handle_collision w1)).
    unfold before_player_finish, tick. rewrite Hw1. cbn [bind].
    split; [reflexivity |]. split; [reflexivity |].
    intros Hno.
    assert (H1 : speed (car (opponent w1)) = 0 /\ at_start (opponent w1)).
    { unfold tick_motion in Hw1. bind_inv Hw1. injection Hw1 as <-.
      cbn [opponent].
      assert (Ho : opponent (wait_for_start now w) = opponent w).
      { unfold wait_for_start. now destruct in_progress. }
      rewrite Ho in Ha.
      destruct (update_motion_stalled _ _ Hs Ha) as (Hx' & Hy' & Hs').
      unfold at_start. rewrite Hx', Hy'. tauto. }
    assert (H2 : speed (car (opponent (opponent_finish_step (border_step w1))))
                 = 0 /\
                 at_start (opponent (opponent_finish_step (border_step w1)))).
    { unfold opponent_finish_step.
      rewrite (proj1 (border_step_opponent w1)).
      destruct collides_with; [unfold at_start; simpl; tauto |].
      now rewrite (proj1 (border_step_opponent w1)). }
    unfold handle_collision.
    rewrite <- (proj1 (player_finish_step_index _) Hno) in H2.
    unfold game_finished_step.
    destruct is_game_finished; [unfold at_start; simpl; tauto | exact H2].
Qed.

(** ** Two bounces in one call *)

(** X18: when the player overlaps the track border, the computer car is not
    on the finish line, and the player as bounced off the border overlaps
    the finish line with overlap point [y = 0], the player is bounced twice
    in the one call: it leaves [handle_collision] with the speed and heading
    it came with, not reversed, and computer car and race state are
    untouched. *)
Theorem handle_collision_double_bounce (w : World) (poi1 poi2 : Z * Z) :
  collides_with (player w) TRACK_EDGE_MASK 0 0 = Some poi1 ->
  collides_with (car (opponent w)) FINISH_LINE_MASK
    (fst FINISH_POS) (snd FINISH_POS) = None ->
  collides_with (bounce (player w)) FINISH_LINE_MASK
    (fst FINISH_POS) (snd FINISH_POS) = Some poi2 ->
  snd poi2 = 0%Z ->
  player (handle_collision w) = bounce (bounce (player w)) /\
  speed (player (handle_collision w)) = speed (player w) /\
  heading (player (handle_collision w)) = heading (player w) /\
  opponent (handle_collision w) = opponent w /\
  race_state (handle_collision w) = race_state w.
Proof.
  intros Hedge Hopp Hfin Hy.
  unfold handle_collision, border_step. rewrite Hedge.
  unfold opponent_finish_step. cbn [opponent]. rewrite Hopp.
  unfold player_finish_step, player_finish_poi. cbn [player].
  rewrite Hfin. apply Z.eqb_eq in Hy. rewrite Hy.
  cbn [player opponent race_state].
  split; [reflexivity |]. split; [| repeat split; reflexivity].
  unfold bounce. simpl. ring.
Qed.

End LoopProperties.

(** * The difficulty over a run *)

Section DifficultyProperties.

Context {pg : Pygame} {assets : Assets}.

Lemma handle_collision_difficulty (w : World) :
  difficulty_matches w -> difficulty_matches (handle_collision w).
Proof.
  intros H. unfold handle_collision.
  assert (H1 : difficulty_matches (border_step w)).
  { unfold difficulty_matches.
    now rewrite (proj1 (border_step_opponent w)),
                (proj2 (border_step_opponent w)). }
  revert H1. generalize (border_step w). clear H w. intros w H1.
  assert (H2 : difficulty_matches (opponent_finish_step w)).
  { unfold opponent_finish_step. destruct collides_with; [| exact H1].
    left. reflexivity. }
  revert H2. generalize (opponent_finish_step w). clear H1 w. intros w H2.
  unfold player_finish_step.
  destruct player_finish_poi as [poi |]; [| exact H2].
  destruct (snd poi =? 0)%Z; [exact H2 |].
  right. reflexivity.
Qed.

Lemma tick_difficulty (keys : Keys) (now : R) (w w' : World) :
  difficulty_matches w ->
  tick keys now w = Ok w' ->
  difficulty_matches w'.
Proof.
  intros H Htick. unfold tick in Htick. bind_inv Htick.
  injection Htick as <-.
  assert (H1 : difficulty_matches a).
  { unfold tick_motion in Ha. bind_inv Ha. injection Ha as <-.
    assert (Hw : opponent (wait_for_start now w) = opponent w /\
                 stage (race_state (wait_for_start now w))
                 = stage (race_state w)).
    { unfold wait_for_start. destruct in_progress; split; reflexivity. }
    destruct Hw as [Ho Hst]. rewrite Ho in Ha0.
    apply update_motion_frame in Ha0 as (_ & _ & Hs & Hm & _).
    unfold difficulty_matches in *. cbn [opponent race_state].
    rewrite Hs, Hm, Hst. exact H. }
  apply handle_collision_difficulty in H1.
  unfold game_finished_step. destruct is_game_finished; [| exact H1].
  left. reflexivity.
Qed.

(** X19: over any run of the loop the computer car's speed is either 0 or
    [max_speed + (stage - 1) * 0.2] for the stage the race is at: it starts
    so, [update_motion] never changes the speed, crediting a stage sets the
    speed of the new stage, and the two resets set it to 0. *)
Theorem run_ticks_difficulty (inputs : list (Keys * R)) (w : World) :
  world_ok w ->
  difficulty_matches w ->
  exists w', run_ticks inputs w = Ok w' /\ difficulty_matches w'.
Proof.
  revert w. induction inputs as [| [keys now] rest IH]; intros w Hok Hd.
  - exists w. split; [reflexivity | exact Hd].
  - destruct (tick_keeps_world_ok keys now w Hok) as (w1 & Ht & Hok1 & _).
    destruct (IH w1 Hok1 (tick_difficulty keys now w w1 Hd Ht))
      as (w' & Hr & Hd').
    exists w'. simpl. rewrite Ht. cbn [bind]. split; [exact Hr | exact Hd'].
Qed.

End DifficultyProperties.

(** * The further properties on concrete cars and worlds *)

Lemma accelerate_backward_speed_witness :
  speed (PlayerCar_accelerate_backward player0) <= speed player0 /\
  (exists c', ComputerCar_accelerate_backward opponent0 = Ok c' /\
     speed (car c') <= speed (car opponent0)).
Proof.
  split.
  - apply (proj1 accelerate_backward_speed player0); simpl; lra.
  - destruct (proj2 accelerate_backward_speed opponent0)
      as (c' & Hrun & _ & _ & Hle); [simpl; lia |].
    exists c'. split; [exact Hrun |]. apply Hle; simpl; lra.
Defined.

Lemma apply_friction_slows_witness :
  speed (apply_friction player_reversing) = 0 /\
  speed (apply_friction player_fast) <= speed player_fast.
Proof.
  split.
  - apply (apply_friction_slows player_reversing); simpl; lra.
  - apply (apply_friction_slows player_fast); simpl; lra.
Defined.

Lemma update_motion_rest_and_up_witness :
  y_pos (AbstractCar_update_motion player_fast) = 200 - 4 /\
  AbstractCar_update_motion player0 = player0.
Proof.
  split.
  - apply (update_motion_rest_and_up player_fast). reflexivity.
  - apply (update_motion_rest_and_up player0). reflexivity.
Defined.


Lemma move_player_bounds_witness :
  speed_in_bounds (move_player keys_w player0).
Proof.
  apply (move_player_bounds keys_w player0).
  - simpl. lra.
  - unfold speed_in_bounds. simpl. lra.
Defined.

Lemma steering_near_angle :
  compute_angle steering_near =
  Ok (with_car (set_heading (steer 4 2 (degrees 0))) steering_near).
Proof.
  unfold compute_angle.
  change (py_index (waypoints steering_near) (waypoint_index steering_near))
    with (Ok (150, 100)%Z).
  cbn [bind].
  change (desired_angle_rad _ _ (150, 100)%Z)
    with (desired_angle_rad 150 200 (150, 100)%Z).
  rewrite desired_angle_straight_up. reflexivity.
Qed.

Lemma compute_angle_turns_toward_witness :
  heading (car (with_car (set_heading (steer 4 2 (degrees 0))) steering_near))
  <= heading (car steering_near).
Proof.
  assert (Hd : degrees 0 = 0) by (unfold degrees; lra).
  apply (compute_angle_turns_toward steering_near _ (150, 100)%Z 0).
  - simpl. lra.
  - reflexivity.
  - exact desired_angle_straight_up.
  - exact steering_near_angle.
  - cbn [car with_car steering_near heading set_heading
         ComputerCar_init set_speed AbstractCar_init].
    rewrite Hd. unfold angle_delta.
    destruct (Rle_dec 180 (2 - 0)); lra.
Defined.

Lemma desired_angle_quadrant_witness : -90 <= degrees 0 <= 0.
Proof.
  apply (desired_angle_quadrant 150 200 (150, 100)%Z 0
           desired_angle_straight_up); cbn [fst snd]; lra.
Defined.

Lemma get_stage_time_elapsed_witness :
  Rabs (IZR (get_stage_time 7.4 (start_stage 5 (GameInfo_init 1)))
        - (7.4 - 5)) <= 1 / 2 /\
  (0 <= get_stage_time 7.4 (start_stage 5 (GameInfo_init 1)))%Z /\
  get_stage_time 7.4 (GameInfo_init 1) = 0%Z.
Proof.
  destruct (get_stage_time_elapsed 7.4 (start_stage 5 (GameInfo_init 1)))
    as (_ & _ & _ & Hrun & _).
  destruct (Hrun eq_refl) as [Hnear Hpos].
  split; [exact Hnear |]. split; [apply Hpos; simpl; lra |].
  exact (proj1 (get_stage_time_elapsed 7.4 (GameInfo_init 1)) eq_refl).
Defined.

Lemma world_crossing_tick :
  tick no_keys 0 world_crossing =
  Ok {| player := PlayerCar_reset_state (player world_crossing);
        opponent := ComputerCar_advance_level 2 (opponent world_crossing);
        race_state := GameInfo_advance_level (race_state world_crossing) |}.
Proof.
  unfold tick. rewrite world_crossing_motion. cbn [bind].
  unfold handle_collision. rewrite world_crossing_before_finish.
  rewrite (player_finish_step_credit world_crossing (0, 1)%Z
             world_crossing_poi) by (simpl; lia).
  reflexivity.
Qed.

Lemma tick_paused_cars_at_start_witness :
  parked
    {| player := PlayerCar_reset_state (player world_crossing);
       opponent := ComputerCar_advance_level 2 (opponent world_crossing);
       race_state := GameInfo_advance_level (race_state world_crossing) |}.
Proof.
  apply (tick_paused_cars_at_start no_keys 0 world_crossing).
  - exact world_crossing_tick.
  - reflexivity.
Defined.

Lemma world0_ok : world_ok world0.
Proof.
  unfold world_ok, index_within, speed_within, LEVELS. simpl.
  rewrite Rabs_R0. repeat split; try lia; lra.
Qed.

Lemma run_ticks_invariant_witness :
  exists w',
    run_ticks [(no_keys, 0); (keys_w, 1); (keys_a_d, 2)] world0 = Ok w' /\
    world_ok w'.
Proof.
  destruct (run_ticks_invariant [(no_keys, 0); (keys_w, 1); (keys_a_d, 2)]
              world0 world0_ok) as (w' & Hrun & Hok & _).
  exists w'. split; [exact Hrun | exact Hok].
Defined.

Lemma computer_car_keeps_parameters_witness :
  index_within opponent_level2 /\ waypoints opponent_level2 = WAYPOINTS.
Proof.
  destruct (computer_car_keeps_parameters 2 4 WAYPOINTS opponent_level2)
    as (Hi & Hw & _).
  - apply (reach_step _ opponent0 _ (CAdvanceLevel 2)).
    + apply reach_init.
    + reflexivity.
  - split; [exact Hi | exact Hw].
Defined.

Lemma world_after_loss_motion (now : R) :
  tick_motion no_keys now world_after_loss = Ok world_after_loss.
Proof.
  apply tick_motion_at_rest; simpl; try reflexivity; try lra; lia.
Qed.

Lemma world_after_loss_before_finish :
  opponent_finish_step (border_step world_after_loss) = world_after_loss.
Proof.
  unfold border_step. eval_collides 180%Z 200%Z.
  change (pixels_overlap _ _ _) with (@None (Z * Z)). cbv iota.
  unfold opponent_finish_step. eval_collides 150%Z 200%Z.
  reflexivity.
Qed.

Lemma world_after_loss_poi : player_finish_poi world_after_loss = None.
Proof.
  unfold player_finish_poi. eval_collides 180%Z 200%Z. reflexivity.
Qed.

Lemma computer_car_stays_parked_witness :
  (speed (car (opponent (opponent_finish_step world_lost))) = 0 /\
   at_start (opponent (opponent_finish_step world_lost))) /\
  (exists w', tick no_keys 1 world_after_loss = Ok w' /\
     speed (car (opponent w')) = 0 /\ at_start (opponent w')).
Proof.
  split.
  - apply (proj1 (proj2 computer_car_stays_parked) world_lost (0, 0)%Z).
    eval_collides 130%Z 250%Z. reflexivity.
  - destruct (proj2 (proj2 computer_car_stays_parked) no_keys 1
                world_after_loss)
      as (w2 & w' & Hbefore & Htick & Hstay).
    + simpl. lia.
    + reflexivity.
    + unfold at_start. simpl. lra.
    + exists w'. split; [exact Htick |]. apply Hstay.
      unfold before_player_finish in Hbefore.
      rewrite world_after_loss_motion in Hbefore. cbn [bind] in Hbefore.
      rewrite world_after_loss_before_finish in Hbefore.
      injection Hbefore as <-.
      unfold completes_stage. rewrite world_after_loss_poi. reflexivity.
Defined.

Lemma world_double_bounce_bounced :
  x_pos (bounce (player world_double_bounce)) = IZR 130 /\
  y_pos (bounce (player world_double_bounce)) = IZR 250.
Proof.
  unfold bounce, AbstractCar_update_motion. simpl.
  unfold radians. rewrite Rmult_0_l, sin_0, cos_0. split; lra.
Qed.

Lemma handle_collision_double_bounce_witness :
  speed (player (@handle_collision pixel_pygame pixel_assets_wall
                   world_double_bounce)) = 1.
Proof.
  destruct world_double_bounce_bounced as [Hx Hy].
  destruct (@handle_collision_double_bounce pixel_pygame pixel_assets_wall
              world_double_bounce (130, 249)%Z (0, 0)%Z)
    as (_ & Hs & _).
  - eval_collides 130%Z 249%Z. reflexivity.
  - eval_collides 178%Z 260%Z. reflexivity.
  - rewrite (pixel_collides_with _ _ _ _ 130 250 Hx Hy). reflexivity.
  - reflexivity.
  - rewrite Hs. reflexivity.
Defined.

Lemma run_ticks_difficulty_witness :
  exists w',
    run_ticks [(no_keys, 0); (keys_w, 1)] world0 = Ok w' /\
    difficulty_matches w'.
Proof.
  apply (run_ticks_difficulty [(no_keys, 0); (keys_w, 1)] world0 world0_ok).
  right. simpl. lra.
Defined.
